(** * Thundercracker simulator: the master-controller core (system_mc.cpp)

    A shallow embedding of [SystemMC] (emulator/src/system_mc.cpp): the
    simulated clock and [SysTime::ticks], the radio transaction loop
    ([Radio::halt], [doRadioPacket], [beginPacket], [endPacket],
    [getCubeForAddress]) and the flash installer ([installELF]).

    The collaborators whose code lives in other files of the repository
    (RadioManager, the cube hardware, the cube synchronisation object,
    FlashDevice, FlashBlock, the constants of system_mc.h and systime.h)
    are interfaces here: every result below holds for all their
    implementations.  Calls into them are recorded, in program order, as
    the events a function emits. *)

From Stdlib Require Import String ZArith List Bool Lia Arith.
From Equations Require Import Equations.
From Equations.Prop Require Import Logic.
Import ListNotations.
Open Scope Z_scope.

(** ** Machine integers *)

(** [uint64_t] and [unsigned]: the value kept modulo the word size. *)
Definition u64 (x : Z) : Z := x mod 2 ^ 64.
Definition u32 (x : Z) : Z := x mod 2 ^ 32.

(** [int(x)]: conversion to a 32-bit two's complement integer. *)
Definition int32 (x : Z) : Z := (x + 2 ^ 31) mod 2 ^ 32 - 2 ^ 31.

(** The conversion of ticks to elapsed time as the design words it:
    multiply by the per-quantum constant, then divide by the fractional
    scale [2 ^ scale], on unbounded integers. *)
Definition toTime_reference (perQuantum scale t : Z) : Z :=
  (t * perQuantum) / 2 ^ scale.

(** ** Data *)

(** [RadioAddress]: channel and five id bytes. *)
Record RadioAddress := {
  channel : Z;
  id : list Z
}.

(** [Cube::Radio::Packet]: a length and a fixed payload array. *)
Record Packet := {
  len : Z;
  payload : list Z
}.

(** [PacketBuffer]: a pointer to bytes and a length.  In [doRadioPacket]
    the pointer of [buf.prx] aliases [buf.reply.payload], so the buffer
    handed to [ackWithPacket] carries the reply's bytes. *)
Record PacketBuffer := {
  bytes : list Z;
  buflen : Z
}.

(** [PacketTransmission] as [RadioManager::produce] leaves it: the bytes
    it stored through [ptx.packet.bytes] (which aliases
    [buf.packet.payload]), the length, and the destination pointer
    ([None] is the null pointer). *)
Record PacketTransmission := {
  ptx_bytes : list Z;
  ptx_len : Z;
  dest : option RadioAddress
}.

(** ** Interfaces of the collaborators *)

(** What system_mc.h, systime.h, radio.h, cube_radio.h and protocol.h
    declare: the constants of [SystemMC], the size of a payload, the
    offsets [RF_ACK_LEN_*] at which the trace separates the fields of an
    acknowledgement, the unit conversions of [SysTime] and
    [RadioAddress::pack]. *)
Class Constants := {
  TICK_HZ : Z;
  TICKS_PER_PACKET : Z;
  STARTUP_DELAY : Z;
  MAX_RETRIES : nat;
  PAYLOAD_MAX : nat;
  RF_ACK_LEN : list Z;
  hzTicks : Z -> Z;
  msTicks : Z -> Z;
  pack : RadioAddress -> Z
}.

(** The protocol-consuming layer. *)
Class RadioManager := {
  RM : Type;
  produce : RM -> PacketTransmission * RM;
  ackWithPacket : PacketBuffer -> RM -> RM;
  ackEmpty : RM -> RM;
  timeout : RM -> RM
}.

(** The cube simulation: one [Cube::Hardware] per slot and the
    synchronisation object [sys->getCubeSync()].  [handlePacket rx tx hw]
    returns the acknowledge flag, the reply buffer as the cube left it and
    the cube afterwards.  [beginEventAt] and [endEvent] say what the cube
    thread did to the cubes when the master rendezvouses at a timestamp and
    when it lets the cubes run on to a deadline. *)
Class CubeSim := {
  Hardware : Type;
  cube_id : Hardware -> Z;
  getPackedRXAddr : Hardware -> Z;
  handlePacket : Packet -> Packet -> Hardware -> bool * Packet * Hardware;
  beginEventAt : Z -> bool -> list Hardware -> list Hardware;
  endEvent : Z -> list Hardware -> list Hardware
}.

(** The simulated flash and the block cache above it. *)
Class FlashSim := {
  Flash : Type;
  chipErase : Flash -> Flash;
  write : Z -> list Byte.byte -> Flash -> Flash;
  Cache : Type;
  invalidate : Cache -> Cache
}.

(** ** Events *)

(** One line of the radio trace ([opt_radioTrace]). *)
Inductive LogResult :=
| LogAck (cube : Z) (replyLen : Z) (fields : list (bool * Z))
| LogTimeout (retry : nat).

Record LogRecord := {
  log_ms : Z;
  log_channel : Z;
  log_id : list Z;
  log_len : Z;
  log_nybbles : list (option (Z * Z));
  log_result : LogResult
}.

(** Calls that leave [SystemMC], in program order. *)
Inductive Event :=
| EvProduce (ptx : PacketTransmission)
| EvBeginEventAt (t : Z) (running : bool)
| EvHandlePacket (cube : nat) (rx : Packet) (ack : bool) (tx : Packet)
| EvEndEvent (t : Z)
| EvLog (r : LogRecord)
| EvAckWithPacket (prx : PacketBuffer)
| EvAckEmpty
| EvTimeout
| EvWake
| EvJoin
| EvSpawn
| EvInstallLog (path : string)
| EvFopen (path : string) (opened : bool)
| EvOpenError (path : string)
| EvChipErase
| EvWrite (addr : Z) (data : list Byte.byte)
| EvFclose
| EvInvalidate.

(** How a function of the master thread ends: it returns, an [ASSERT]
    fails and aborts the run, or [longjmp] leaves the thread. *)
Inductive Exit := Returned | AssertionFailed | ThreadExit.

(** How a call or a loop of the installer ends: with a value, or not at
    all. *)
Inductive Outcome (A : Type) : Type :=
| Returns (a : A)
| NeverReturns.

Arguments Returns {A} a.
Arguments NeverReturns {A}.

(** ** The simulated file *)

(** What the reads of a stream run into once the bytes at hand are used
    up: the end of the file, or an error that does not go away (a
    directory opened for reading, a device that has failed). *)
Inductive StreamEnd := EndOfFile | ReadError.

(** What [fopen] finds at a path.  [content] can be read without error;
    a read that runs out of it fails and delivers what was left, and the
    reads after that failure deliver the next run of bytes in [resumed]
    (a failure that goes away), until the last run is used up and the
    stream meets its [ending]. *)
Record Source := {
  content : list Byte.byte;
  resumed : list (list Byte.byte);
  ending : StreamEnd
}.

(** A regular file that is read without errors, and a directory: it opens
    for reading, and every read of it fails. *)
Definition regularFile (image : list Byte.byte) : Source :=
  {| content := image; resumed := []; ending := EndOfFile |}.

Definition directory : Source :=
  {| content := []; resumed := []; ending := ReadError |}.

(** A stdio stream open for reading: the bytes at hand, the runs that
    follow read errors, how the stream ends, and the end-of-file
    indicator.  (The error indicator is never tested by the program.) *)
Record FILE := {
  unread : list Byte.byte;
  later : list (list Byte.byte);
  atEnd : StreamEnd;
  eof : bool
}.

(** [fread(buf, 1, n, f)]: [n] bytes when there are as many at hand.  It
    comes up short only at the end of the file, where it sets the
    end-of-file indicator, or on a read error, where it does not. *)
Definition fread (n : nat) (f : FILE) : list Byte.byte * FILE :=
  let got := firstn n (unread f) in
  if (length got <? n)%nat then
    match later f, atEnd f with
    | next :: rest, _ =>
        (got, {| unread := next; later := rest; atEnd := atEnd f; eof := eof f |})
    | [], EndOfFile =>
        (got, {| unread := []; later := []; atEnd := EndOfFile; eof := true |})
    | [], ReadError =>
        (got, {| unread := []; later := []; atEnd := ReadError; eof := eof f |})
    end
  else
    (got, {| unread := skipn n (unread f); later := later f;
             atEnd := atEnd f; eof := eof f |}).

Definition feof (f : FILE) : bool := eof f.

(** [fopen(path, "rb")] over a file system [fs]. *)
Definition fopen (fs : string -> option Source) (path : string)
  : option FILE :=
  match fs path with
  | Some src => Some {| unread := content src; later := resumed src;
                        atEnd := ending src; eof := false |}
  | None => None
  end.

(** A stream on which no read makes progress any more: nothing is at
    hand, nothing follows, and the reads fail without reaching the end of
    the file. *)
Definition exhausted (f : FILE) : bool :=
  match unread f, later f, atEnd f with
  | [], [], ReadError => negb (eof f)
  | _, _, _ => false
  end.

(** Whether the reads of a stream get to the end of the file. *)
Definition reachesEnd (f : FILE) : bool :=
  eof f || match atEnd f with EndOfFile => true | ReadError => false end.

(** All the bytes a stream still delivers. *)
Definition deliverable (f : FILE) : list Byte.byte :=
  if eof f then [] else unread f ++ concat (later f).

(** What is left for the copy loop to do on a stream, and why a read that
    makes progress brings the loop closer to its end. *)
Definition fileMeasure (f : FILE) : nat :=
  if eof f then 0%nat
  else S (length (unread f) + list_sum (map (fun b => S (length b)) (later f))).

Lemma fread_exhausted (n : nat) (f : FILE) :
  exhausted f = true -> fread n f = ([], f) /\ feof f = false.
Proof.
  unfold exhausted, fread, feof.
  destruct f as [u l e b]. cbn [unread later atEnd eof].
  destruct u; [| discriminate]. destruct l; [| discriminate].
  destruct e; [discriminate |]. destruct b; [discriminate |].
  intros _. destruct n; split; reflexivity.
Qed.

Lemma fread_decreases (f : FILE) :
  feof f = false -> exhausted f = false ->
  (fileMeasure (snd (fread 512 f)) < fileMeasure f)%nat.
Proof.
  unfold feof, exhausted, fileMeasure, fread.
  destruct f as [u l e b]. cbn [unread later atEnd eof].
  intros -> Hex.
  destruct (Nat.ltb_spec (length (firstn 512 u)) 512) as [Hs | Hs].
  - destruct l as [|next rest].
    + destruct e; cbn [snd eof unread later map list_sum fold_right length].
      * lia.
      * destruct u; [discriminate Hex | cbn [length]; lia].
    + cbn [snd eof unread later map list_sum fold_right length]. lia.
  - cbn [snd eof unread later]. rewrite length_skipn.
    rewrite length_firstn in Hs. lia.
Qed.

Section Model.

Context {K : Constants} {R : RadioManager} {C : CubeSim} {F : FlashSim}.

(** ** State *)

(** [SystemMC] with the parts of [System] it reaches through [sys]. *)
Record SystemMC := {
  ticks : Z;
  mThreadRunning : bool;
  mThread : bool;
  opt_numCubes : nat;
  opt_radioTrace : bool;
  time_clocks : Z;
  cubes : list Hardware;
  radio : RM;
  flash : Flash;
  cache : Cache
}.

Definition set_ticks (t : Z) (s : SystemMC) : SystemMC :=
  {| ticks := t; mThreadRunning := mThreadRunning s; mThread := mThread s;
     opt_numCubes := opt_numCubes s; opt_radioTrace := opt_radioTrace s;
     time_clocks := time_clocks s; cubes := cubes s; radio := radio s;
     flash := flash s; cache := cache s |}.

Definition set_thread (running handle : bool) (s : SystemMC) : SystemMC :=
  {| ticks := ticks s; mThreadRunning := running; mThread := handle;
     opt_numCubes := opt_numCubes s; opt_radioTrace := opt_radioTrace s;
     time_clocks := time_clocks s; cubes := cubes s; radio := radio s;
     flash := flash s; cache := cache s |}.

Definition set_cubes (cs : list Hardware) (s : SystemMC) : SystemMC :=
  {| ticks := ticks s; mThreadRunning := mThreadRunning s; mThread := mThread s;
     opt_numCubes := opt_numCubes s; opt_radioTrace := opt_radioTrace s;
     time_clocks := time_clocks s; cubes := cs; radio := radio s;
     flash := flash s; cache := cache s |}.

Definition set_radio (r : RM) (s : SystemMC) : SystemMC :=
  {| ticks := ticks s; mThreadRunning := mThreadRunning s; mThread := mThread s;
     opt_numCubes := opt_numCubes s; opt_radioTrace := opt_radioTrace s;
     time_clocks := time_clocks s; cubes := cubes s; radio := r;
     flash := flash s; cache := cache s |}.

Definition set_flash (f : Flash) (s : SystemMC) : SystemMC :=
  {| ticks := ticks s; mThreadRunning := mThreadRunning s; mThread := mThread s;
     opt_numCubes := opt_numCubes s; opt_radioTrace := opt_radioTrace s;
     time_clocks := time_clocks s; cubes := cubes s; radio := radio s;
     flash := f; cache := cache s |}.

Definition set_cache (c : Cache) (s : SystemMC) : SystemMC :=
  {| ticks := ticks s; mThreadRunning := mThreadRunning s; mThread := mThread s;
     opt_numCubes := opt_numCubes s; opt_radioTrace := opt_radioTrace s;
     time_clocks := time_clocks s; cubes := cubes s; radio := radio s;
     flash := flash s; cache := c |}.

(** ** The simulation monad: state and emitted events *)

Definition Sim (A : Type) : Type := SystemMC -> A * SystemMC * list Event.

Definition ret {A} (a : A) : Sim A := fun s => (a, s, []).

Definition bind {A B} (m : Sim A) (k : A -> Sim B) : Sim B :=
  fun s =>
    let '(a, s1, t1) := m s in
    let '(b, s2, t2) := k a s1 in
    (b, s2, t1 ++ t2).

Definition emit (e : Event) : Sim unit := fun s => (tt, s, [e]).
Definition gets {A} (f : SystemMC -> A) : Sim A := fun s => (f s, s, []).
Definition modify (f : SystemMC -> SystemMC) : Sim unit :=
  fun s => (tt, f s, []).

Definition result {A} (r : A * SystemMC * list Event) : A := fst (fst r).
Definition final {A} (r : A * SystemMC * list Event) : SystemMC := snd (fst r).
Definition events {A} (r : A * SystemMC * list Event) : list Event := snd r.

End Model.

Declare Scope sim_scope.
Delimit Scope sim_scope with sim.
Notation "x <- m ;; k" := (bind m (fun x => k))
  (at level 61, m at next level, right associativity) : sim_scope.
Notation "m ;; k" := (bind m (fun _ => k))
  (at level 61, right associativity) : sim_scope.
Open Scope sim_scope.

(** ** The radio transaction (system_mc.cpp, lines 97-250) *)

Section Radio.

Context {K : Constants} {R : RadioManager} {C : CubeSim} {F : FlashSim}.

(** [SysTime::ticks]: [(ticks * hzTicks(TICK_HZ / 16)) >> 4] on 64-bit
    unsigned integers. *)
Definition SysTime_ticks (s : SystemMC) : Z :=
  Z.shiftr (u64 (ticks s * hzTicks (TICK_HZ / 16))) 4.

(** The calls on [sys->getCubeSync()]. *)
Definition CubeSync_beginEventAt (t : Z) (running : bool) : Sim unit :=
  emit (EvBeginEventAt t running) ;;
  modify (fun s => set_cubes (beginEventAt t running (cubes s)) s).

Definition CubeSync_endEvent (t : Z) : Sim unit :=
  emit (EvEndEvent t) ;;
  modify (fun s => set_cubes (endEvent t (cubes s)) s).

Definition beginPacket : Sim unit :=
  modify (fun s => set_ticks (u64 (ticks s + TICKS_PER_PACKET)) s) ;;
  t <- gets ticks ;;
  running <- gets mThreadRunning ;;
  CubeSync_beginEventAt t running.

Definition endPacket : Sim unit :=
  t <- gets ticks ;;
  CubeSync_endEvent (u64 (t + TICKS_PER_PACKET)).

(** [getCubeForAddress]: the first of the [opt_numCubes] cubes whose packed
    receive address is the packed destination ([sys->cubes] holds at
    least [opt_numCubes] cubes).  The pointer it returns is the cube's
    index here. *)
Fixpoint scanCubes (packed : Z) (i : nat) (cs : list Hardware) : option nat :=
  match cs with
  | [] => None
  | cube :: rest =>
      if getPackedRXAddr cube =? packed then Some i
      else scanCubes packed (S i) rest
  end.

Definition getCubeForAddress (addr : RadioAddress) : Sim (option nat) :=
  gets (fun s => scanCubes (pack addr) 0 (firstn (opt_numCubes s) (cubes s))).

Fixpoint replaceAt {A} (i : nat) (x : A) (l : list A) : list A :=
  match l, i with
  | [], _ => []
  | _ :: rest, O => x :: rest
  | y :: rest, S j => y :: replaceAt j x rest
  end.

(** [cube->spi.radio.handlePacket(buf.packet, buf.reply)]. *)
Definition Cube_handlePacket (i : nat) (rx tx : Packet) : Sim (bool * Packet) :=
  fun s =>
    match nth_error (cubes s) i with
    | Some hw =>
        let '(ack, tx', hw') := handlePacket rx tx hw in
        ((ack, tx'), set_cubes (replaceAt i hw' (cubes s)) s,
         [EvHandlePacket i rx ack tx'])
    | None => ((false, tx), s, [])
    end.

(** The calls on [RadioManager]. *)
Definition RadioManager_produce : Sim PacketTransmission :=
  fun s =>
    let '(ptx, r) := produce (radio s) in
    (ptx, set_radio r s, [EvProduce ptx]).

Definition RadioManager_ackWithPacket (prx : PacketBuffer) : Sim unit :=
  emit (EvAckWithPacket prx) ;;
  modify (fun s => set_radio (ackWithPacket prx (radio s)) s).

Definition RadioManager_ackEmpty : Sim unit :=
  emit EvAckEmpty ;;
  modify (fun s => set_radio (ackEmpty (radio s)) s).

Definition RadioManager_timeout : Sim unit :=
  emit EvTimeout ;;
  modify (fun s => set_radio (timeout (radio s)) s).

(** The trace line of one attempt (lines 158-201). *)
Definition nybbles (p : Packet) : list (option (Z * Z)) :=
  map (fun i =>
         if Z.of_nat i <? len p
         then let b := nth i (payload p) 0 in
              Some (Z.land b 15, Z.shiftr b 4)
         else None)
      (seq 0 PAYLOAD_MAX).

Definition ackFields (reply : Packet) : list (bool * Z) :=
  map (fun i =>
         (existsb (Z.eqb (Z.of_nat i)) RF_ACK_LEN, nth i (payload reply) 0))
      (seq 0 (Z.to_nat (len reply))).

Definition logRecord (s : SystemMC) (d : RadioAddress) (packet reply : Packet)
    (ack : bool) (cube : option nat) (retry : nat) : LogRecord :=
  {| log_ms := int32 (SysTime_ticks s / msTicks 1);
     log_channel := channel d;
     log_id := rev (firstn 5 (id d));
     log_len := len packet;
     log_nybbles := nybbles packet;
     log_result :=
       if ack then
         LogAck match cube with
                | Some i => match nth_error (cubes s) i with
                            | Some hw => cube_id hw
                            | None => 0
                            end
                | None => 0
                end
                (len reply) (ackFields reply)
       else LogTimeout retry |}.

(** The body of the retry loop up to the response (lines 152-201): one
    delivery attempt.  It returns [buf.ack] and [buf.reply]. *)
Definition attempt (d : RadioAddress) (packet reply : Packet) (retry : nat)
  : Sim (bool * Packet) :=
  beginPacket ;;
  cube <- getCubeForAddress d ;;
  r <- match cube with
       | Some i => Cube_handlePacket i packet reply
       | None => ret (false, reply)
       end ;;
  endPacket ;;
  tracing <- gets opt_radioTrace ;;
  (if tracing : bool
   then s <- gets (fun s => s) ;;
        emit (EvLog (logRecord s d packet (snd r) (fst r) cube retry))
   else ret tt) ;;
  ret r.

(** [for (retry = 0; retry < MAX_RETRIES; ++retry)], by the number of
    iterations that remain ([MAX_RETRIES - retry]); after the loop,
    [RadioManager::timeout()]. *)
Fixpoint retryLoop (remaining retry : nat) (d : RadioAddress)
    (packet reply : Packet) : Sim unit :=
  match remaining with
  | O => RadioManager_timeout
  | S remaining' =>
      r <- attempt d packet reply retry ;;
      if fst r : bool then
        if negb (len (snd r) =? 0)
        then RadioManager_ackWithPacket
               {| bytes := payload (snd r); buflen := len (snd r) |}
        else RadioManager_ackEmpty
      else retryLoop remaining' (S retry) d packet (snd r)
  end.

(** [SystemMC::doRadioPacket].  [ASSERT(buf.ptx.dest != NULL)] ends the
    run when the destination is null. *)
Definition doRadioPacket : Sim Exit :=
  ptx <- RadioManager_produce ;;
  match dest ptx with
  | None => ret AssertionFailed
  | Some d =>
      let packet := {| len := ptx_len ptx; payload := ptx_bytes ptx |} in
      let reply := {| len := 0; payload := repeat 0 PAYLOAD_MAX |} in
      retryLoop MAX_RETRIES 0 d packet reply ;;
      ret Returned
  end.

(** [Radio::halt]: leave the thread when it is being stopped, otherwise
    run one transaction. *)
Definition Radio_halt : Sim Exit :=
  running <- gets mThreadRunning ;;
  if running : bool then doRadioPacket else ret ThreadExit.

(** A sequence of [n] transactions, as the master thread pumps them; it
    ends early when one of them does not return. *)
Fixpoint pump (n : nat) : Sim Exit :=
  match n with
  | O => ret Returned
  | S n' =>
      e <- Radio_halt ;;
      match e with
      | Returned => pump n'
      | _ => ret e
      end
  end.

(** [threadFn]: the clock starts [STARTUP_DELAY] after the cubes' clock,
    then the thread pumps transactions. *)
Definition threadFn (n : nat) : Sim Exit :=
  modify (fun s => set_ticks (u64 (time_clocks s + STARTUP_DELAY)) s) ;;
  pump n.

(** ** Reading a run's events *)

Definition isReport (e : Event) : bool :=
  match e with
  | EvAckWithPacket _ | EvAckEmpty | EvTimeout => true
  | _ => false
  end.

(** The reports delivered to the consuming layer. *)
Definition reports (evs : list Event) : list Event := filter isReport evs.

(** The number of delivery attempts: one rendezvous is opened for each. *)
Definition attempts (evs : list Event) : nat :=
  length (filter (fun e => match e with EvBeginEventAt _ _ => true | _ => false end) evs).

(** The reply of the first acknowledged delivery, if any. *)
Fixpoint firstAck (evs : list Event) : option Packet :=
  match evs with
  | [] => None
  | EvHandlePacket _ _ true tx :: _ => Some tx
  | _ :: rest => firstAck rest
  end.

(** The report the protocol owes for an outcome: the reply when a cube
    acknowledged with one, an empty acknowledgement when the reply was
    empty, a timeout when nothing acknowledged. *)
Definition reportFor (outcome : option Packet) : Event :=
  match outcome with
  | Some tx =>
      if len tx =? 0 then EvAckEmpty
      else EvAckWithPacket {| bytes := payload tx; buflen := len tx |}
  | None => EvTimeout
  end.

(** The bounds handed to the synchronisation object, in order: those of
    [beginEventAt], those of [endEvent], and both. *)
Fixpoint opens (evs : list Event) : list Z :=
  match evs with
  | [] => []
  | EvBeginEventAt t _ :: rest => t :: opens rest
  | _ :: rest => opens rest
  end.

Fixpoint closes (evs : list Event) : list Z :=
  match evs with
  | [] => []
  | EvEndEvent t :: rest => t :: closes rest
  | _ :: rest => closes rest
  end.

Fixpoint bounds (evs : list Event) : list Z :=
  match evs with
  | [] => []
  | EvBeginEventAt t _ :: rest => t :: bounds rest
  | EvEndEvent t :: rest => t :: bounds rest
  | _ :: rest => bounds rest
  end.

(** Events without the trace lines. *)
Definition protocol (evs : list Event) : list Event :=
  filter (fun e => match e with EvLog _ => false | _ => true end) evs.

(** The clock after [a] attempts from the value [t], and the windows
    opened on the way: each attempt adds [TICKS_PER_PACKET] in 64-bit
    arithmetic, opens at the new value and re-arms one quantum later. *)
Fixpoint advance (a : nat) (t : Z) : Z :=
  match a with
  | O => t
  | S a' => advance a' (u64 (t + TICKS_PER_PACKET))
  end.

Fixpoint windows (a : nat) (t : Z) : list (Z * Z) :=
  match a with
  | O => []
  | S a' =>
      let t' := u64 (t + TICKS_PER_PACKET) in
      (t', u64 (t' + TICKS_PER_PACKET)) :: windows a' t'
  end.

(** Events [evs] take the clock from [t] to [t']: the rendezvous calls
    among them are those of [attempts evs] windows counted from [t]. *)
Definition Clocked (t : Z) (evs : list Event) (t' : Z) : Prop :=
  opens evs = map fst (windows (attempts evs) t) /\
  closes evs = map snd (windows (attempts evs) t) /\
  bounds evs = flat_map (fun w => [fst w; snd w]) (windows (attempts evs) t) /\
  t' = advance (attempts evs) t.

(** The rendezvous calls of [a] attempts that reach no cube. *)
Fixpoint idleWindows (a : nat) (t : Z) (running : bool) : list Event :=
  match a with
  | O => []
  | S a' =>
      let t' := u64 (t + TICKS_PER_PACKET) in
      EvBeginEventAt t' running :: EvEndEvent (u64 (t' + TICKS_PER_PACKET))
        :: idleWindows a' t' running
  end.

(** A pass through the body of the retry loop (lines 144-201), by what
    became of the packet: no cube was at the address, or a cube was
    handed the packet and did or did not acknowledge it. *)
Inductive Pass := NoCube | Delivered (ack : bool).

Definition isDelivered (p : Pass) : bool :=
  match p with
  | Delivered _ => true
  | NoCube => false
  end.

(** The passes [retryLoop] makes, by the loop's own control: one while
    passes remain, and the next only when the delivery was not
    acknowledged. *)
Fixpoint passes (remaining retry : nat) (d : RadioAddress)
    (packet reply : Packet) (s : SystemMC) : list Pass :=
  match remaining with
  | O => []
  | S remaining' =>
      let run := attempt d packet reply retry s in
      let pass :=
        match result (getCubeForAddress d (final (beginPacket s))) with
        | Some _ => Delivered (fst (result run))
        | None => NoCube
        end in
      pass ::
      (if fst (result run) : bool then []
       else passes remaining' (S retry) d packet (snd (result run)) (final run))
  end.

(** The passes of one transaction and of a sequence of [n] transactions. *)
Definition transactionPasses (s : SystemMC) : list Pass :=
  let ptx := fst (produce (radio s)) in
  match dest ptx with
  | None => []
  | Some d =>
      passes MAX_RETRIES 0 d
        {| len := ptx_len ptx; payload := ptx_bytes ptx |}
        {| len := 0; payload := repeat 0 PAYLOAD_MAX |}
        (set_radio (snd (produce (radio s))) s)
  end.

Fixpoint pumpPasses (n : nat) (s : SystemMC) : list Pass :=
  match n with
  | O => []
  | S n' =>
      if mThreadRunning s then
        transactionPasses s ++
        match result (doRadioPacket s) with
        | Returned => pumpPasses n' (final (doRadioPacket s))
        | _ => []
        end
      else []
  end.

(** The state after [k] attempts in a row that reached no cube. *)
Definition missed (k : nat) (s : SystemMC) : SystemMC :=
  Nat.iter k (fun s' => final ((beginPacket ;; endPacket) s')) s.

End Radio.

(** Order on a list of bounds. *)
Fixpoint strictlyIncreasing (l : list Z) : bool :=
  match l with
  | x :: (y :: _) as rest => (x <? y) && strictlyIncreasing rest
  | _ => true
  end.

Fixpoint nonDecreasing (l : list Z) : bool :=
  match l with
  | x :: (y :: _) as rest => (x <=? y) && nonDecreasing rest
  | _ => true
  end.

(** ** Thread lifecycle and flash installation (lines 52-67, 300-339) *)

Section Install.

Context {K : Constants} {R : RadioManager} {C : CubeSim} {F : FlashSim}.

(** [SystemMC::start]: the flag is raised, then the thread is created;
    what the new thread does is [threadFn]. *)
Definition start : Sim unit :=
  modify (fun s => set_thread true (mThread s) s) ;;
  emit EvSpawn ;;
  modify (fun s => set_thread (mThreadRunning s) true s).

(** [SystemMC::stop]: the flag is lowered, the cube thread is woken, the
    master thread is joined and its handle cleared.  These are the steps
    of the calling thread; what the master thread itself still does
    before it sees the flag and leaves is part of its own run ([pump]),
    not of this call. *)
Definition stop : Sim unit :=
  modify (fun s => set_thread false (mThread s) s) ;;
  emit EvWake ;;
  emit EvJoin ;;
  modify (fun s => set_thread (mThreadRunning s) false s).

(** The calls on [FlashDevice] and [FlashBlock]. *)
Definition FlashDevice_chipErase : Sim unit :=
  emit EvChipErase ;;
  modify (fun s => set_flash (chipErase (flash s)) s).

Definition FlashDevice_write (addr : Z) (buf : list Byte.byte) : Sim unit :=
  emit (EvWrite addr buf) ;;
  modify (fun s => set_flash (write addr buf (flash s)) s).

Definition FlashBlock_invalidate : Sim unit :=
  emit EvInvalidate ;;
  modify (fun s => set_cache (invalidate (cache s)) s).

(** The copy loop of [installELF] (lines 321-328):
    [while (!feof(f)) { rxed = fread(buf, 1, 512, f);
                        if (rxed > 0) { write(addr, buf, rxed); addr += rxed; } }]
    with [addr] an [unsigned].  On an exhausted stream the body reads
    nothing and leaves [f], [addr] and the flash as they are while
    [feof(f)] stays false ([fread_exhausted]): the loop then runs for
    ever. *)
Equations? writeLoop (addr : Z) (f : FILE) : Sim (Outcome unit)
  by wf (fileMeasure f) lt :=
  writeLoop addr f with inspect (feof f) := {
    | exist _ true _ => ret (Returns tt)
    | exist _ false Hf with inspect (exhausted f) := {
      | exist _ true _ => ret NeverReturns
      | exist _ false Hx =>
          let buf := fst (fread 512 f) in
          let rxed := Z.of_nat (length buf) in
          if 0 <? rxed
          then FlashDevice_write addr buf ;;
               writeLoop (u32 (addr + rxed)) (snd (fread 512 f))
          else writeLoop addr (snd (fread 512 f))
      }
  }.
Proof.
  all: apply fread_decreases; assumption.
Qed.

(** [SystemMC::installELF].  What follows the copy loop is reached when
    the loop ends. *)
Definition installELF (fs : string -> option Source) (path : string)
  : Sim (Outcome bool) :=
  restartThread <- gets mThreadRunning ;;
  (if restartThread : bool then stop else ret tt) ;;
  emit (EvInstallLog path) ;;
  let elfFile := fopen fs path in
  emit (EvFopen path match elfFile with Some _ => true | None => false end) ;;
  success <- match elfFile with
             | None => emit (EvOpenError path) ;; ret (Returns false)
             | Some f =>
                 FlashDevice_chipErase ;;
                 copied <- writeLoop 0 f ;;
                 match copied with
                 | Returns _ => emit EvFclose ;; ret (Returns true)
                 | NeverReturns => ret NeverReturns
                 end
             end ;;
  match success with
  | Returns ok =>
      FlashBlock_invalidate ;;
      (if restartThread : bool then start else ret tt) ;;
      ret (Returns ok)
  | NeverReturns => ret NeverReturns
  end.

(** ** Reading an installation's events *)

(** The flash writes, in order. *)
Fixpoint writes (evs : list Event) : list (Z * list Byte.byte) :=
  match evs with
  | [] => []
  | EvWrite addr data :: rest => (addr, data) :: writes rest
  | _ :: rest => writes rest
  end.

(** Writes that follow one another from [addr], in 32-bit arithmetic. *)
Fixpoint sequentialFrom (addr : Z) (ws : list (Z * list Byte.byte)) : Prop :=
  match ws with
  | [] => True
  | (a, data) :: rest =>
      a = addr /\ (0 < length data <= 512)%nat /\
      sequentialFrom (u32 (addr + Z.of_nat (length data))) rest
  end.

Definition isFlashAccess (e : Event) : bool :=
  match e with
  | EvChipErase | EvWrite _ _ => true
  | _ => false
  end.

Definition isThreadCall (e : Event) : bool :=
  match e with
  | EvWake | EvJoin | EvSpawn => true
  | _ => false
  end.

Definition isInvalidate (e : Event) : bool :=
  match e with
  | EvInvalidate => true
  | _ => false
  end.

(** The events of a list of writes, and their effect on the flash. *)
Definition writeEvents (ws : list (Z * list Byte.byte)) : list Event :=
  map (fun w => EvWrite (fst w) (snd w)) ws.

Definition applyWrites (ws : list (Z * list Byte.byte)) (fl : Flash) : Flash :=
  fold_left (fun fl w => write (fst w) (snd w) fl) ws fl.

(** Whether [fopen] gets a stream for [path], and whether the reads of
    what is at [path] reach the end of the file. *)
Definition opened (fs : string -> option Source) (path : string) : bool :=
  match fs path with
  | Some _ => true
  | None => false
  end.

Definition readsToEnd (fs : string -> option Source) (path : string) : bool :=
  match fs path with
  | Some {| ending := EndOfFile |} => true
  | _ => false
  end.

(** All the bytes the reads of a source deliver. *)
Definition delivered (src : Source) : list Byte.byte :=
  content src ++ concat (resumed src).

(** Whether a call of [installELF] on [path] returns: it does unless the
    path opens and its reads never reach the end of the file. *)
Definition comesBack (fs : string -> option Source) (path : string) : bool :=
  negb (opened fs path) || readsToEnd fs path.

(** The events of an installation that makes the writes [ws], by what
    [fopen] finds. *)
Definition installTrace (running : bool) (path : string)
    (found : option Source) (ws : list (Z * list Byte.byte)) : list Event :=
  (if running then [EvWake; EvJoin] else []) ++
  EvInstallLog path ::
  match found with
  | None =>
      [EvFopen path false; EvOpenError path; EvInvalidate] ++
      (if running then [EvSpawn] else [])
  | Some src =>
      EvFopen path true :: EvChipErase :: writeEvents ws ++
      match ending src with
      | EndOfFile =>
          [EvFclose; EvInvalidate] ++ (if running then [EvSpawn] else [])
      | ReadError => []
      end
  end.

(** A write that ends beyond a store of [capacity] bytes. *)
Definition beyond (capacity : Z) (w : Z * list Byte.byte) : bool :=
  capacity <? fst w + Z.of_nat (length (snd w)).

End Install.

(** ** Further readings of a run *)

Section Readings.

Context {K : Constants} {R : RadioManager} {C : CubeSim} {F : FlashSim}.

(** The deliveries to cubes: which cube, and the packet handed to it. *)
Fixpoint deliveries (evs : list Event) : list (nat * Packet) :=
  match evs with
  | [] => []
  | EvHandlePacket cube rx _ _ :: rest => (cube, rx) :: deliveries rest
  | _ :: rest => deliveries rest
  end.

(** The lines of the radio trace. *)
Fixpoint logs (evs : list Event) : list LogRecord :=
  match evs with
  | [] => []
  | EvLog r :: rest => r :: logs rest
  | _ :: rest => logs rest
  end.

(** The packets asked of the consuming layer. *)
Fixpoint produced (evs : list Event) : list PacketTransmission :=
  match evs with
  | [] => []
  | EvProduce ptx :: rest => ptx :: produced rest
  | _ :: rest => produced rest
  end.

(** Where the calls stand with respect to the rendezvous: the cubes are
    touched inside a window only ([inWindow] says whether one is open),
    windows do not nest, [RadioManager] is called outside of them, and no
    window is left open at the end. *)
Fixpoint insideWindows (inWindow : bool) (evs : list Event) : bool :=
  match evs with
  | [] => negb inWindow
  | EvBeginEventAt _ _ :: rest => negb inWindow && insideWindows true rest
  | EvEndEvent _ :: rest => inWindow && insideWindows false rest
  | EvHandlePacket _ _ _ _ :: rest => inWindow && insideWindows inWindow rest
  | EvProduce _ :: rest
  | EvAckWithPacket _ :: rest
  | EvAckEmpty :: rest
  | EvTimeout :: rest => negb inWindow && insideWindows inWindow rest
  | _ :: rest => insideWindows inWindow rest
  end.

(** What a report does to the consuming layer. *)
Definition deliver (e : Event) (r : RM) : RM :=
  match e with
  | EvAckWithPacket prx => ackWithPacket prx r
  | EvAckEmpty => ackEmpty r
  | EvTimeout => timeout r
  | _ => r
  end.

(** The same machine with the radio trace switched on or off. *)
Definition set_radioTrace (b : bool) (s : SystemMC) : SystemMC :=
  {| ticks := ticks s; mThreadRunning := mThreadRunning s; mThread := mThread s;
     opt_numCubes := opt_numCubes s; opt_radioTrace := b;
     time_clocks := time_clocks s; cubes := cubes s; radio := radio s;
     flash := flash s; cache := cache s |}.

(** A computation that the trace option does not steer: switched either
    way it gives the same result, the same state and, trace lines apart,
    the same events. *)
Definition TraceBlind {A} (m : Sim A) : Prop :=
  forall b s,
    result (m (set_radioTrace b s)) = result (m s) /\
    final (m (set_radioTrace b s)) = set_radioTrace b (final (m s)) /\
    protocol (events (m (set_radioTrace b s))) = protocol (events (m s)).


(** An image cut into the 512-byte pieces of the copy loop, each with the
    address it goes to, counted from [addr] in 32-bit arithmetic. *)
Definition chunks (addr : Z) (data : list Byte.byte) : list (Z * list Byte.byte) :=
  map (fun k => (u32 (addr + 512 * Z.of_nat k),
                 firstn 512 (skipn (512 * k) data)))
      (seq 0 ((length data + 511) / 512)).

End Readings.

(** The retry numbers of the trace lines that report no acknowledgement. *)
Fixpoint timeoutRetries (ls : list LogRecord) : list nat :=
  match ls with
  | [] => []
  | l :: rest =>
      match log_result l with
      | LogTimeout r => r :: timeoutRetries rest
      | LogAck _ _ _ => timeoutRetries rest
      end
  end.

(** The attempts of a run that were not acknowledged. *)
Definition unacknowledged (evs : list Event) : nat :=
  match firstAck evs with
  | Some _ => (attempts evs - 1)%nat
  | None => attempts evs
  end.

(** ** The video memory check (system_mc.cpp, lines 234-298) *)

(** [_SYSVideoBuffer] as far as the check reads it: the change maps
    [cm16] and [cm1] and the bytes of [vram]. *)
Record SYSVideoBuffer := {
  cm16 : Z;
  cm1 : list Z;
  vram : list Z
}.

(** [CubeSlot] as far as the check reads it. *)
Record CubeSlot := {
  slot_id : Z;
  getRadioAddress : RadioAddress;
  getVBuf : option SYSVideoBuffer
}.

(** What the check logs. *)
Inductive VramMessage :=
| VramChange (slot : Z) (i : nat) (bits : Z)
| VramMismatch (slot : Z) (i : nat) (hw buf : Z)
| VramTotal (slot : Z) (errors : Z)
| VramOkay (slot : Z).

(** The cube's external data memory ([hw->cpu.mExtData]) and the size of
    the video memory ([_SYS_VRAM_BYTES]). *)
Class CubeMemory {C : CubeSim} := {
  mExtData : Hardware -> list Z;
  SYS_VRAM_BYTES : nat
}.

Section Video.

Context {K : Constants} {R : RadioManager} {C : CubeSim} {F : FlashSim}
        {M : CubeMemory}.

(** [SystemMC::getCubeForSlot]. *)
Definition getCubeForSlot (slot : CubeSlot) : Sim (option nat) :=
  getCubeForAddress (getRadioAddress slot).

(** The first loop: a message for each word of [cm1] that is not zero. *)
Definition changeMessages (slot : CubeSlot) (vbuf : SYSVideoBuffer)
  : list VramMessage :=
  flat_map (fun i =>
              if negb (nth i (cm1 vbuf) 0 =? 0)
              then [VramChange (slot_id slot) i (nth i (cm1 vbuf) 0)]
              else [])
           (seq 0 (length (cm1 vbuf))).

(** The second loop: a message for each of the [_SYS_VRAM_BYTES] bytes
    that differs between the cube's memory and the buffer. *)
Definition mismatchMessages (slot : CubeSlot) (hwMem bufMem : list Z)
  : list VramMessage :=
  flat_map (fun i =>
              if negb (nth i hwMem 0 =? nth i bufMem 0)
              then [VramMismatch (slot_id slot) i (nth i hwMem 0) (nth i bufMem 0)]
              else [])
           (seq 0 SYS_VRAM_BYTES).

(** [SystemMC::checkQuiescentVRAM]: how it ends and what it logs.  The
    error count is an [unsigned]. *)
Definition checkQuiescentVRAM (slot : option CubeSlot) (s : SystemMC)
  : Exit * list VramMessage :=
  match slot with
  | None => (AssertionFailed, [])
  | Some sl =>
      match getVBuf sl with
      | None => (Returned, [])
      | Some vbuf =>
          match result (getCubeForSlot sl s) with
          | None => (Returned, [])
          | Some i =>
              match nth_error (cubes s) i with
              | None => (Returned, [])
              | Some hw =>
                  if negb (cm16 vbuf =? 0) then (AssertionFailed, [])
                  else
                    let msgs := changeMessages sl vbuf ++
                                mismatchMessages sl (mExtData hw) (vram vbuf) in
                    let errors := u32 (Z.of_nat (length msgs)) in
                    if negb (errors =? 0)
                    then (AssertionFailed, msgs ++ [VramTotal (slot_id sl) errors])
                    else (Returned, msgs ++ [VramOkay (slot_id sl)])
              end
          end
      end
  end.

End Video.

(** ** A sample platform, for running the model *)

Module Sample.

(** A 16 MHz clock (the comment in [SysTime::ticks]: 62.5 ns a tick, so
    [hzTicks(TICK_HZ / 16)] is 1000 in 60.4 fixed point), nanosecond time
    units, three retries, and addresses packed little-endian below the
    channel. *)
#[export] Instance constants : Constants := {|
  TICK_HZ := 16000000;
  TICKS_PER_PACKET := 7200;
  STARTUP_DELAY := 4000000;
  MAX_RETRIES := 3;
  PAYLOAD_MAX := 32;
  RF_ACK_LEN := [1; 4; 8; 9; 11; 19];
  hzTicks := fun hz => 1000000000 / hz;
  msTicks := fun x => x * 1000000;
  pack := fun a =>
    fold_right (fun b acc => b + 256 * acc) (channel a) (firstn 5 (id a))
|}.

(** A consuming layer that sends the same packet every time and counts
    the reports it gets. *)
Record Driver := {
  outgoing : PacketTransmission;
  acks : nat;
  emptyAcks : nat;
  timeouts : nat
}.

#[export] Instance radioManager : RadioManager := {|
  RM := Driver;
  produce := fun r => (outgoing r, r);
  ackWithPacket := fun _ r =>
    {| outgoing := outgoing r; acks := S (acks r);
       emptyAcks := emptyAcks r; timeouts := timeouts r |};
  ackEmpty := fun r =>
    {| outgoing := outgoing r; acks := acks r;
       emptyAcks := S (emptyAcks r); timeouts := timeouts r |};
  timeout := fun r =>
    {| outgoing := outgoing r; acks := acks r;
       emptyAcks := emptyAcks r; timeouts := S (timeouts r) |}
|}.

(** A cube that listens on one address and, when it answers, always
    acknowledges with the same reply. *)
Record Cube := {
  rxAddr : Z;
  answers : bool;
  reply : list Z
}.

#[export] Instance cubeSim : CubeSim := {|
  Hardware := Cube;
  cube_id := fun _ => 0;
  getPackedRXAddr := rxAddr;
  handlePacket := fun _ tx hw =>
    if answers hw
    then (true,
          {| len := Z.of_nat (length (reply hw));
             payload := reply hw ++ skipn (length (reply hw)) (payload tx) |},
          hw)
    else (false, tx, hw);
  beginEventAt := fun _ _ cs => cs;
  endEvent := fun _ cs => cs
|}.

(** A store of 1024 bytes: erased bytes read 0xff, a write lands on the
    bytes inside the store.  The cache counts its invalidations. *)
Definition capacity : Z := 1024.

Fixpoint overlay (addr : nat) (data store : list Byte.byte) : list Byte.byte :=
  match store, addr with
  | [], _ => []
  | b :: rest, S a => b :: overlay a data rest
  | _ :: rest, O =>
      match data with
      | [] => store
      | d :: data' => d :: overlay O data' rest
      end
  end.

#[export] Instance flashSim : FlashSim := {|
  Flash := list Byte.byte;
  chipErase := fun fl => repeat Byte.xff (length fl);
  write := fun addr data fl => overlay (Z.to_nat addr) data fl;
  Cache := nat;
  invalidate := S
|}.

Definition address (ch : Z) (bs : list Z) : RadioAddress :=
  {| channel := ch; id := bs |}.

Definition threeBytes : list Z := [1; 2; 3] ++ repeat 0 29.

Definition driverTo (d : option RadioAddress) : Driver :=
  {| outgoing := {| ptx_bytes := threeBytes; ptx_len := 3; dest := d |};
     acks := 0; emptyAcks := 0; timeouts := 0 |}.

Definition machine (running : bool) (cs : list Cube) (d : option RadioAddress)
  : SystemMC :=
  {| ticks := 4000000; mThreadRunning := running; mThread := running;
     opt_numCubes := length cs; opt_radioTrace := false; time_clocks := 0;
     cubes := cs; radio := driverTo d;
     flash := repeat Byte.x00 (Z.to_nat capacity); cache := 0%nat |}.

(** Scenario A: a cube at packed address 0xABCD acknowledges a three-byte
    packet with the one-byte reply 0x42. *)
Definition scenarioA : SystemMC :=
  machine true
    [{| rxAddr := 43981; answers := true; reply := [66] |}]
    (Some (address 0 [205; 171; 0; 0; 0])).

(** Scenario B: no cube is registered. *)
Definition scenarioB : SystemMC :=
  machine true [] (Some (address 0 [205; 171; 0; 0; 0])).

(** A consuming layer that produces a null destination. *)
Definition scenarioNull : SystemMC := machine true [] None.

(** Scenario B with a cube at the address that never acknowledges. *)
Definition scenarioSilent : SystemMC :=
  machine true
    [{| rxAddr := 43981; answers := false; reply := [] |}]
    (Some (address 0 [205; 171; 0; 0; 0])).

(** Scenario B with the master thread stopped. *)
Definition scenarioStopped : SystemMC :=
  machine false [] (Some (address 0 [205; 171; 0; 0; 0])).

(** Files: an empty image, a two-chunk image, one byte more than the
    store holds, an image whose reads fail once after 100 bytes and then
    go on, and a directory. *)
Definition disk (path : string) : option Source :=
  if String.eqb path "empty.elf" then Some (regularFile [])
  else if String.eqb path "game.elf" then Some (regularFile (repeat Byte.x2a 600))
  else if String.eqb path "big.elf" then Some (regularFile (repeat Byte.x2a 1025))
  else if String.eqb path "flaky.elf"
       then Some {| content := repeat Byte.x2a 100;
                    resumed := [repeat Byte.x2b 600];
                    ending := EndOfFile |}
  else if String.eqb path "games" then Some directory
  else None.

(** The cube's data memory: its reply bytes, then zeros; four bytes of
    video memory are checked. *)
#[export] Instance cubeMemory : CubeMemory := {|
  mExtData := fun hw => firstn 4 (reply hw ++ repeat 0 4);
  SYS_VRAM_BYTES := 4
|}.

(** A slot at scenario A's address whose buffer mirrors the cube's
    memory, with no change pending. *)
Definition slotA : CubeSlot :=
  {| slot_id := 0;
     getRadioAddress := address 0 [205; 171; 0; 0; 0];
     getVBuf := Some {| cm16 := 0; cm1 := [0; 0]; vram := [66; 0; 0; 0] |} |}.

(** Scenario B with the radio trace switched on. *)
Definition scenarioTraced : SystemMC := set_radioTrace true scenarioB.

End Sample.

(** * Properties *)

(** ** The simulation monad *)

Section SimLaws.

Context {K : Constants} {R : RadioManager} {C : CubeSim} {F : FlashSim}.

Lemma bind_events {A B} (m : Sim A) (k : A -> Sim B) s :
  events (bind m k s) = events (m s) ++ events (k (result (m s)) (final (m s))).
Proof.
  unfold bind, events, result, final.
  destruct (m s) as [[a s1] t1]. cbn.
  destruct (k a s1) as [[b s2] t2]. reflexivity.
Qed.

Lemma bind_final {A B} (m : Sim A) (k : A -> Sim B) s :
  final (bind m k s) = final (k (result (m s)) (final (m s))).
Proof.
  unfold bind, events, result, final.
  destruct (m s) as [[a s1] t1]. cbn.
  destruct (k a s1) as [[b s2] t2]. reflexivity.
Qed.

Lemma bind_result {A B} (m : Sim A) (k : A -> Sim B) s :
  result (bind m k s) = result (k (result (m s)) (final (m s))).
Proof.
  unfold bind, events, result, final.
  destruct (m s) as [[a s1] t1]. cbn.
  destruct (k a s1) as [[b s2] t2]. reflexivity.
Qed.

Lemma set_flash_same (s : SystemMC) : set_flash (flash s) s = s.
Proof. destruct s. reflexivity. Qed.

End SimLaws.

Ltac sim_unfold :=
  unfold beginPacket, endPacket, CubeSync_beginEventAt, CubeSync_endEvent,
    getCubeForAddress, RadioManager_produce, RadioManager_ackWithPacket,
    RadioManager_ackEmpty, RadioManager_timeout, bind, emit, gets, modify, ret,
    events, result, final in *.

(** Every way one attempt can go: no cube at the address, a cube that
    acknowledges or not, with and without the radio trace. *)
Ltac attempt_cases s :=
  unfold attempt, Cube_handlePacket; sim_unfold; cbn;
  destruct (scanCubes _ _ _) as [?i|]; cbn;
  [ destruct (nth_error _ _) as [?hw|]; cbn;
    [ destruct (handlePacket _ _ _) as [[[|] ?tx] ?hw']; cbn | ] | ];
  destruct (opt_radioTrace s); cbn.

(** ** Reading events off a concatenation *)

Section EventLists.

Lemma firstAck_app l1 l2 :
  firstAck (l1 ++ l2) =
  match firstAck l1 with Some tx => Some tx | None => firstAck l2 end.
Proof.
  induction l1 as [|e l1 IH]; [reflexivity|].
  destruct e; cbn; try exact IH. destruct ack; [reflexivity | exact IH].
Qed.

Lemma reports_app l1 l2 : reports (l1 ++ l2) = reports l1 ++ reports l2.
Proof. apply filter_app. Qed.

Lemma protocol_app l1 l2 : protocol (l1 ++ l2) = protocol l1 ++ protocol l2.
Proof. apply filter_app. Qed.

Lemma attempts_app l1 l2 : attempts (l1 ++ l2) = (attempts l1 + attempts l2)%nat.
Proof. unfold attempts. rewrite filter_app, length_app. reflexivity. Qed.

Lemma opens_app l1 l2 : opens (l1 ++ l2) = opens l1 ++ opens l2.
Proof.
  induction l1 as [|e l1 IH]; [reflexivity|].
  destruct e; cbn; rewrite ?IH; reflexivity.
Qed.

Lemma closes_app l1 l2 : closes (l1 ++ l2) = closes l1 ++ closes l2.
Proof.
  induction l1 as [|e l1 IH]; [reflexivity|].
  destruct e; cbn; rewrite ?IH; reflexivity.
Qed.

Lemma bounds_app l1 l2 : bounds (l1 ++ l2) = bounds l1 ++ bounds l2.
Proof.
  induction l1 as [|e l1 IH]; [reflexivity|].
  destruct e; cbn; rewrite ?IH; reflexivity.
Qed.

Lemma deliveries_app l1 l2 : deliveries (l1 ++ l2) = deliveries l1 ++ deliveries l2.
Proof.
  induction l1 as [|e l1 IH]; [reflexivity|].
  destruct e; cbn; rewrite ?IH; reflexivity.
Qed.

Lemma writes_app l1 l2 : writes (l1 ++ l2) = writes l1 ++ writes l2.
Proof.
  induction l1 as [|e l1 IH]; [reflexivity|].
  destruct e; cbn; rewrite ?IH; reflexivity.
Qed.

Lemma writes_writeEvents ws : writes (writeEvents ws) = ws.
Proof.
  unfold writeEvents. induction ws as [|[a data] ws IH]; [reflexivity|].
  cbn. rewrite IH. reflexivity.
Qed.

Lemma filter_writeEvents (p : Event -> bool) ws :
  (forall a data, p (EvWrite a data) = false) ->
  filter p (writeEvents ws) = [].
Proof.
  intros Hp. unfold writeEvents.
  induction ws as [|[a data] ws IH]; [reflexivity|].
  cbn. rewrite Hp. exact IH.
Qed.

End EventLists.

(** ** 64-bit arithmetic of the clock *)

Section WordFacts.

Lemma u64_small x : 0 <= x < 2 ^ 64 -> u64 x = x.
Proof. intros H. unfold u64. apply Z.mod_small. exact H. Qed.

Lemma u64_add_l x y : u64 (u64 x + y) = u64 (x + y).
Proof. unfold u64. apply Zplus_mod_idemp_l. Qed.

Lemma strictlyIncreasing_steps t q a : forall j,
  0 < q ->
  strictlyIncreasing (map (fun k => t + Z.of_nat k * q) (seq j a)) = true.
Proof.
  induction a as [|a IH]; intros j Hq; [reflexivity|].
  cbn [seq map]. specialize (IH (S j) Hq).
  destruct a as [|a]; [reflexivity|].
  cbn [seq map] in IH |- *. cbn [strictlyIncreasing].
  apply andb_true_intro. split; [apply Z.ltb_lt; lia | exact IH].
Qed.

Lemma nonDecreasing_windows t q a : forall j,
  0 <= q ->
  nonDecreasing
    (flat_map (fun w : Z * Z => [fst w; snd w])
       (map (fun k => (t + Z.of_nat k * q, t + Z.of_nat (S k) * q)) (seq j a)))
  = true.
Proof.
  induction a as [|a IH]; intros j Hq; [reflexivity|].
  cbn [seq map flat_map fst snd app]. specialize (IH (S j) Hq).
  destruct a as [|a].
  - cbn [seq map flat_map fst snd app nonDecreasing].
    rewrite andb_true_r. apply Z.leb_le. lia.
  - cbn [seq map flat_map fst snd app] in IH |- *.
    cbn [nonDecreasing] in IH |- *.
    rewrite IH, andb_true_r.
    apply andb_true_intro. split; apply Z.leb_le; lia.
Qed.

End WordFacts.

Section ClosedForms.

Context {K : Constants}.

Lemma advance_add a b t : advance (a + b) t = advance b (advance a t).
Proof.
  revert t. induction a as [|a IH]; intros t; [reflexivity|]. cbn. apply IH.
Qed.

Lemma windows_add a b t :
  windows (a + b) t = windows a t ++ windows b (advance a t).
Proof.
  revert t. induction a as [|a IH]; intros t; [reflexivity|].
  cbn. rewrite IH. reflexivity.
Qed.

Lemma advance_u64 a : forall x,
  advance a (u64 x) = u64 (x + Z.of_nat a * TICKS_PER_PACKET).
Proof.
  induction a as [|a IH]; intros x.
  - cbn. f_equal. lia.
  - cbn [advance]. rewrite u64_add_l, IH. f_equal. lia.
Qed.

Lemma windows_u64 a : forall j x,
  windows a (u64 (x + Z.of_nat j * TICKS_PER_PACKET)) =
  map (fun k => (u64 (x + Z.of_nat k * TICKS_PER_PACKET),
                 u64 (x + Z.of_nat (S k) * TICKS_PER_PACKET)))
      (seq (S j) a).
Proof.
  induction a as [|a IH]; intros j x; [reflexivity|].
  cbn [windows seq map]. cbv zeta.
  rewrite !u64_add_l.
  replace (x + Z.of_nat j * TICKS_PER_PACKET + TICKS_PER_PACKET)
    with (x + Z.of_nat (S j) * TICKS_PER_PACKET) by lia.
  replace (x + Z.of_nat (S j) * TICKS_PER_PACKET + TICKS_PER_PACKET)
    with (x + Z.of_nat (S (S j)) * TICKS_PER_PACKET) by lia.
  rewrite IH. reflexivity.
Qed.

Lemma advance_closed a t :
  0 <= t < 2 ^ 64 -> advance a t = u64 (t + Z.of_nat a * TICKS_PER_PACKET).
Proof. intros H. rewrite <- (u64_small t H) at 1. apply advance_u64. Qed.

Lemma windows_closed a t :
  0 <= t < 2 ^ 64 ->
  windows a t =
  map (fun k => (u64 (t + Z.of_nat k * TICKS_PER_PACKET),
                 u64 (t + Z.of_nat (S k) * TICKS_PER_PACKET)))
      (seq 1 a).
Proof.
  intros H. rewrite <- (windows_u64 a 0 t). f_equal.
  rewrite Z.mul_0_l, Z.add_0_r. symmetry. apply u64_small. exact H.
Qed.

(** Without overflow the bounds are exact sums. *)
Lemma windows_exact a t :
  0 <= t -> 0 <= TICKS_PER_PACKET ->
  t + Z.of_nat (S a) * TICKS_PER_PACKET < 2 ^ 64 ->
  windows a t =
  map (fun k => (t + Z.of_nat k * TICKS_PER_PACKET,
                 t + Z.of_nat (S k) * TICKS_PER_PACKET))
      (seq 1 a).
Proof.
  intros Ht Hq Hno. rewrite windows_closed by nia.
  apply map_ext_in. intros k Hk. apply in_seq in Hk.
  rewrite !u64_small by nia. reflexivity.
Qed.

Lemma opens_exact a t :
  0 <= t -> 0 <= TICKS_PER_PACKET ->
  t + Z.of_nat a * TICKS_PER_PACKET < 2 ^ 64 ->
  map fst (windows a t) =
  map (fun k => t + Z.of_nat k * TICKS_PER_PACKET) (seq 1 a).
Proof.
  intros Ht Hq Hno. rewrite windows_closed by nia. rewrite map_map. cbn [fst].
  apply map_ext_in. intros k Hk. apply in_seq in Hk.
  rewrite !u64_small by nia. reflexivity.
Qed.

Lemma idleWindows_windows a : forall t running,
  idleWindows a t running =
  flat_map (fun w => [EvBeginEventAt (fst w) running; EvEndEvent (snd w)])
           (windows a t).
Proof.
  induction a as [|a IH]; intros t running; [reflexivity|].
  cbn. rewrite IH. reflexivity.
Qed.

Lemma idleWindows_closed a t running :
  0 <= t < 2 ^ 64 ->
  idleWindows a t running =
  flat_map (fun k =>
              [EvBeginEventAt (u64 (t + Z.of_nat k * TICKS_PER_PACKET)) running;
               EvEndEvent (u64 (t + Z.of_nat (S k) * TICKS_PER_PACKET))])
           (seq 1 a).
Proof.
  intros H. rewrite idleWindows_windows, windows_closed by exact H.
  generalize (seq 1 a). intros l.
  induction l as [|k l IH]; [reflexivity|].
  cbn [map flat_map fst snd app]. rewrite IH. reflexivity.
Qed.

Lemma Clocked_silent t evs :
  bounds evs = [] -> Clocked t evs t.
Proof.
  intros H.
  assert (Ha : attempts evs = 0%nat /\ opens evs = [] /\ closes evs = []).
  { induction evs as [|e evs IH]; [repeat split|].
    destruct e; cbn in H |- *; try discriminate; unfold attempts in *; cbn; auto. }
  destruct Ha as (Ha & Ho & Hc). unfold Clocked. rewrite Ha, Ho, Hc, H.
  repeat split.
Qed.

Lemma Clocked_app t1 t2 t3 e1 e2 :
  Clocked t1 e1 t2 -> Clocked t2 e2 t3 -> Clocked t1 (e1 ++ e2) t3.
Proof.
  unfold Clocked. intros (O1 & C1 & B1 & T1) (O2 & C2 & B2 & T2).
  rewrite opens_app, closes_app, bounds_app, attempts_app, windows_add,
    advance_add, !map_app, flat_map_app, <- T1, O1, C1, B1, O2, C2, B2.
  repeat split. exact T2.
Qed.

End ClosedForms.

(** ** One delivery attempt *)

Section AttemptFacts.

Context {K : Constants} {R : RadioManager} {C : CubeSim} {F : FlashSim}.

Variables (d : RadioAddress) (packet : Packet).

Lemma attempt_ticks reply retry s :
  ticks (final (attempt d packet reply retry s)) = u64 (ticks s + TICKS_PER_PACKET).
Proof. attempt_cases s; reflexivity. Qed.

Lemma attempt_frame reply retry s :
  mThreadRunning (final (attempt d packet reply retry s)) = mThreadRunning s /\
  radio (final (attempt d packet reply retry s)) = radio s.
Proof. attempt_cases s; split; reflexivity. Qed.

Lemma attempt_bounds reply retry s :
  bounds (events (attempt d packet reply retry s)) =
  [u64 (ticks s + TICKS_PER_PACKET);
   u64 (u64 (ticks s + TICKS_PER_PACKET) + TICKS_PER_PACKET)].
Proof. attempt_cases s; reflexivity. Qed.

Lemma attempt_opens reply retry s :
  opens (events (attempt d packet reply retry s)) =
  [u64 (ticks s + TICKS_PER_PACKET)].
Proof. attempt_cases s; reflexivity. Qed.

Lemma attempt_closes reply retry s :
  closes (events (attempt d packet reply retry s)) =
  [u64 (u64 (ticks s + TICKS_PER_PACKET) + TICKS_PER_PACKET)].
Proof. attempt_cases s; reflexivity. Qed.

Lemma attempt_attempts reply retry s :
  attempts (events (attempt d packet reply retry s)) = 1%nat.
Proof. attempt_cases s; reflexivity. Qed.

Lemma attempt_reports reply retry s :
  reports (events (attempt d packet reply retry s)) = [].
Proof. attempt_cases s; reflexivity. Qed.

Lemma attempt_firstAck reply retry s :
  firstAck (events (attempt d packet reply retry s)) =
  if fst (result (attempt d packet reply retry s))
  then Some (snd (result (attempt d packet reply retry s)))
  else None.
Proof. attempt_cases s; reflexivity. Qed.

Lemma attempt_clocked reply retry s :
  Clocked (ticks s) (events (attempt d packet reply retry s))
          (ticks (final (attempt d packet reply retry s))).
Proof.
  unfold Clocked.
  rewrite attempt_opens, attempt_closes, attempt_bounds, attempt_attempts,
    attempt_ticks.
  repeat split.
Qed.

(** An attempt that finds no cube at the address: nothing is delivered,
    and only the rendezvous is seen. *)
Lemma attempt_missed reply retry s :
  result (getCubeForAddress d (final (beginPacket s))) = None ->
  result (attempt d packet reply retry s) = (false, reply) /\
  final (attempt d packet reply retry s) = final ((beginPacket ;; endPacket) s) /\
  protocol (events (attempt d packet reply retry s)) =
    [EvBeginEventAt (u64 (ticks s + TICKS_PER_PACKET)) (mThreadRunning s);
     EvEndEvent (u64 (u64 (ticks s + TICKS_PER_PACKET) + TICKS_PER_PACKET))].
Proof.
  unfold attempt. sim_unfold. cbn. intros H. rewrite H. cbn.
  destruct (opt_radioTrace s); cbn; repeat split.
Qed.

Lemma missed_step s :
  ticks (final ((beginPacket ;; endPacket) s)) = u64 (ticks s + TICKS_PER_PACKET) /\
  mThreadRunning (final ((beginPacket ;; endPacket) s)) = mThreadRunning s.
Proof. sim_unfold. cbn. split; reflexivity. Qed.

Lemma missed_set_radio r k s : missed k (set_radio r s) = set_radio r (missed k s).
Proof.
  induction k as [|k IH]; [reflexivity|].
  unfold missed in *. rewrite !Nat.iter_succ, IH. reflexivity.
Qed.

(** ** The retry loop *)

Lemma retryLoop_report remaining : forall retry reply s,
  let run := retryLoop remaining retry d packet reply s in
  reports (events run) = [reportFor (firstAck (events run))] /\
  (firstAck (events run) = None -> attempts (events run) = remaining).
Proof.
  induction remaining as [|n IH]; intros retry reply s; cbn [retryLoop].
  - split; reflexivity.
  - cbv zeta. rewrite bind_events, reports_app, firstAck_app, attempts_app.
    rewrite attempt_reports, attempt_firstAck, attempt_attempts.
    generalize (attempt d packet reply retry s). intros [[[ack tx] s'] evs].
    unfold result, final. cbn [fst snd].
    destruct ack.
    + destruct (len tx =? 0) eqn:Hlen; cbn [negb];
        (split; [cbn; rewrite ?Hlen; reflexivity | intros H; discriminate H]).
    + destruct (IH (S retry) tx s') as [IH1 IH2].
      cbn [app]. split; [exact IH1 |]. intros H. rewrite (IH2 H). reflexivity.
Qed.

Lemma retryLoop_clock remaining : forall retry reply s,
  let run := retryLoop remaining retry d packet reply s in
  Clocked (ticks s) (events run) (ticks (final run)) /\
  mThreadRunning (final run) = mThreadRunning s.
Proof.
  induction remaining as [|n IH]; intros retry reply s; cbn [retryLoop].
  - split; [apply Clocked_silent|]; reflexivity.
  - cbv zeta. rewrite bind_events, bind_final.
    pose proof (attempt_clocked reply retry s) as Hc.
    pose proof (attempt_frame reply retry s) as [Hr _].
    revert Hc Hr.
    generalize (attempt d packet reply retry s). intros [[[ack tx] s'] evs].
    unfold result, final, events. cbn [fst snd]. intros Hc Hr.
    destruct ack.
    + destruct (len tx =? 0); cbn [negb]; (split; [| exact Hr]);
        (eapply Clocked_app; [exact Hc | apply Clocked_silent; reflexivity]).
    + destruct (IH (S retry) tx s') as [IH1 IH2]. split.
      * eapply Clocked_app; [exact Hc | exact IH1].
      * unfold final in IH2. rewrite IH2. exact Hr.
Qed.

Lemma retryLoop_missed remaining : forall retry reply s,
  (forall k, (k < remaining)%nat ->
     result (getCubeForAddress d (final (beginPacket (missed k s)))) = None) ->
  let run := retryLoop remaining retry d packet reply s in
  protocol (events run) =
    idleWindows remaining (ticks s) (mThreadRunning s) ++ [EvTimeout] /\
  firstAck (events run) = None.
Proof.
  induction remaining as [|n IH]; intros retry reply s H; cbn [retryLoop].
  - split; reflexivity.
  - cbv zeta. rewrite bind_events, protocol_app, firstAck_app, attempt_firstAck.
    destruct (attempt_missed reply retry s (H 0%nat ltac:(lia))) as (Hr & Hf & He).
    rewrite He, Hr, Hf. cbn [fst snd app idleWindows].
    destruct (missed_step s) as [Ht Hm].
    destruct (IH (S retry) reply (final ((beginPacket ;; endPacket) s))) as [I1 I2].
    { intros k Hk. specialize (H (S k) ltac:(lia)).
      unfold missed in H |- *. rewrite Nat.iter_succ_r in H. exact H. }
    rewrite I1, I2, Ht, Hm. split; reflexivity.
Qed.

End AttemptFacts.

(** ** Transactions *)

Section TransactionFacts.

Context {K : Constants} {R : RadioManager} {C : CubeSim} {F : FlashSim}.

Lemma doRadioPacket_unfold s :
  doRadioPacket s =
  let ptx := fst (produce (radio s)) in
  let s1 := set_radio (snd (produce (radio s))) s in
  match dest ptx with
  | None => (AssertionFailed, s1, [EvProduce ptx])
  | Some d =>
      let run := retryLoop MAX_RETRIES 0 d
                   {| len := ptx_len ptx; payload := ptx_bytes ptx |}
                   {| len := 0; payload := repeat 0 PAYLOAD_MAX |} s1 in
      (Returned, final run, EvProduce ptx :: events run)
  end.
Proof.
  unfold doRadioPacket, RadioManager_produce, bind, ret, final, events.
  destruct (produce (radio s)) as [ptx r]. cbn.
  destruct (dest ptx) as [d|]; [|reflexivity].
  destruct (retryLoop _ _ _ _ _ _) as [[u s2] t2]. cbn.
  rewrite app_nil_r. reflexivity.
Qed.

Lemma doRadioPacket_result s :
  result (doRadioPacket s) =
  match dest (fst (produce (radio s))) with
  | Some _ => Returned
  | None => AssertionFailed
  end.
Proof.
  rewrite doRadioPacket_unfold. cbv zeta.
  destruct (dest _); reflexivity.
Qed.

Lemma doRadioPacket_clock s :
  let run := doRadioPacket s in
  Clocked (ticks s) (events run) (ticks (final run)) /\
  mThreadRunning (final run) = mThreadRunning s.
Proof.
  cbv zeta. rewrite doRadioPacket_unfold. cbv zeta.
  destruct (dest _) as [d|];
    [| split; [apply Clocked_silent|]; reflexivity].
  match goal with |- context [retryLoop ?n ?k ?d ?p ?r ?s1] =>
    destruct (retryLoop_clock d p n k r s1) as [H1 H2] end.
  split; [| exact H2].
  change (EvProduce ?p :: ?l) with ([EvProduce p] ++ l).
  eapply Clocked_app; [apply Clocked_silent; reflexivity | exact H1].
Qed.

Lemma Radio_halt_unfold s :
  Radio_halt s =
  if mThreadRunning s then doRadioPacket s else (ThreadExit, s, []).
Proof.
  unfold Radio_halt, bind, gets, ret. cbn.
  destruct (mThreadRunning s); [|reflexivity].
  destruct (doRadioPacket s) as [[e s1] t1]. reflexivity.
Qed.

Lemma pump_clock n : forall s,
  let run := pump n s in
  Clocked (ticks s) (events run) (ticks (final run)).
Proof.
  induction n as [|n IH]; intros s; cbn [pump].
  - apply Clocked_silent. reflexivity.
  - cbv zeta. rewrite bind_events, bind_final, Radio_halt_unfold.
    destruct (mThreadRunning s) eqn:Hrun.
    + destruct (doRadioPacket_clock s) as [H1 _].
      eapply Clocked_app; [exact H1 |].
      destruct (result (doRadioPacket s));
        [apply IH | apply Clocked_silent; reflexivity ..].
    + apply Clocked_silent. reflexivity.
Qed.

Lemma pump_never_asserts :
  (forall r, exists d, dest (fst (produce r)) = Some d) ->
  forall n s, result (pump n s) <> AssertionFailed.
Proof.
  intros Hp n. induction n as [|n IH]; intros s; cbn [pump].
  - discriminate.
  - rewrite bind_result, Radio_halt_unfold.
    destruct (mThreadRunning s); [| discriminate].
    rewrite doRadioPacket_result.
    destruct (Hp (radio s)) as [d Hd]. rewrite Hd. apply IH.
Qed.

End TransactionFacts.

(** ** The copy loop and the installer *)

Section CopyLoopFacts.

Context {K : Constants} {R : RadioManager} {C : CubeSim} {F : FlashSim}.

(** A read and what the stream delivers after it make up what it
    delivered before. *)
Lemma fread_all (f : FILE) :
  eof f = false ->
  fst (fread 512 f) ++ deliverable (snd (fread 512 f)) = deliverable f.
Proof.
  unfold fread, deliverable. destruct f as [u l e b].
  cbn [unread later atEnd eof]. intros ->.
  destruct (Nat.ltb_spec (length (firstn 512 u)) 512) as [Hs | Hs].
  - rewrite length_firstn in Hs.
    rewrite (firstn_all2 (n := 512) u) by lia.
    destruct l as [|next rest]; [destruct e |];
      cbn [fst snd eof unread later concat app]; rewrite ?app_nil_r;
      reflexivity.
  - cbn [fst snd eof unread later]. rewrite app_assoc, firstn_skipn.
    reflexivity.
Qed.

(** Reads change neither how a stream ends nor, short of the end of the
    file, whether it gets there. *)
Lemma fread_reachesEnd (f : FILE) :
  eof f = false ->
  reachesEnd (snd (fread 512 f)) = reachesEnd f.
Proof.
  unfold fread, reachesEnd. destruct f as [u l e b].
  cbn [unread later atEnd eof]. intros ->.
  destruct (length (firstn 512 u) <? 512)%nat; [| reflexivity].
  destruct l; [destruct e |]; reflexivity.
Qed.

Lemma exhausted_spec (f : FILE) :
  exhausted f = true ->
  deliverable f = [] /\ reachesEnd f = false.
Proof.
  unfold exhausted, deliverable, reachesEnd. destruct f as [u l e b].
  cbn [unread later atEnd eof].
  destruct u; [| discriminate]. destruct l; [| discriminate].
  destruct e; [discriminate |]. destruct b; [discriminate |].
  intros _. split; reflexivity.
Qed.

(** The loop only writes: non-empty chunks of at most 512 bytes, one after
    the other from [addr], that together are the bytes the stream
    delivers; of the state it changes the flash alone; and it ends exactly
    when the reads reach the end of the file. *)
Lemma writeLoop_spec addr f : forall s,
  exists ws,
    events (writeLoop addr f s) = writeEvents ws /\
    sequentialFrom addr ws /\
    concat (map snd ws) = deliverable f /\
    final (writeLoop addr f s) = set_flash (applyWrites ws (flash s)) s /\
    result (writeLoop addr f s) =
      if reachesEnd f then Returns tt else NeverReturns.
Proof.
  funelim (writeLoop addr f); intros s.
  - exists []. unfold feof in e. unfold deliverable, reachesEnd. rewrite e.
    repeat split. cbn. symmetry. apply set_flash_same.
  - exists []. destruct (exhausted_spec f e) as [Hd Hr]. rewrite Hd, Hr.
    repeat split. cbn. symmetry. apply set_flash_same.
  - cbv zeta. unfold feof in Hf.
    pose proof (fread_all f Hf) as Hall.
    pose proof (fread_reachesEnd f Hf) as Hend.
    destruct (Z.ltb_spec 0 (Z.of_nat (length (fst (fread 512 f)))))
      as [Hpos | Hzero].
    + rewrite bind_events, bind_final, bind_result.
      match goal with |- context [final (FlashDevice_write ?a ?b s)] =>
        change (final (FlashDevice_write a b s))
          with (set_flash (write a b (flash s)) s);
        change (events (FlashDevice_write a b s)) with [EvWrite a b]
      end.
      match goal with
      | IH : unit -> _ |- _ =>
          destruct (IH tt s (set_flash (write addr (fst (fread 512 f)) (flash s)) s))
            as (ws & He & Hseq & Hcat & Hfin & Hres)
      end.
      exists ((addr, fst (fread 512 f)) :: ws).
      split; [cbn [app writeEvents map fst snd]; f_equal; exact He |].
      split.
      { cbn [sequentialFrom]. split; [reflexivity|]. split; [| exact Hseq].
        split; [lia |].
        unfold fread.
        destruct (length (firstn 512 (unread f)) <? 512)%nat;
          [destruct (later f); [destruct (atEnd f) |] |];
          cbn [fst]; rewrite length_firstn; lia. }
      split.
      { cbn [map concat snd]. rewrite Hcat. exact Hall. }
      split; [rewrite Hfin; reflexivity |].
      rewrite Hres, Hend. reflexivity.
    + match goal with
      | IH : SystemMC -> _ |- _ =>
          destruct (IH s s) as (ws & He & Hseq & Hcat & Hfin & Hres)
      end.
      assert (Hnil : fst (fread 512 f) = []).
      { destruct (fst (fread 512 f)); [reflexivity | cbn in Hzero; lia]. }
      exists ws. rewrite Hnil in Hall.
      split; [exact He|]. split; [exact Hseq|].
      split; [rewrite Hcat; exact Hall |].
      split; [exact Hfin |]. rewrite Hres, Hend. reflexivity.
Qed.

End CopyLoopFacts.

Section InstallRunFacts.

Context {K : Constants} {R : RadioManager} {C : CubeSim} {F : FlashSim}.

Lemma sequentialFrom_empty addr ws :
  sequentialFrom addr ws -> concat (map snd ws) = [] -> ws = [].
Proof.
  destruct ws as [|[a data] ws]; [reflexivity|].
  cbn. intros (_ & Hlen & _) Hcat.
  destruct data; [cbn in Hlen; lia | discriminate].
Qed.

(** The whole of an installation: its events in order, its result, and
    what it leaves of the thread flag, the cache and the flash. *)
Lemma installELF_run fs path s :
  exists ws,
    match fs path with
    | Some src => sequentialFrom 0 ws /\ concat (map snd ws) = delivered src
    | None => ws = []
    end /\
    events (installELF fs path s) =
      installTrace (mThreadRunning s) path (fs path) ws /\
    result (installELF fs path s) =
      (if opened fs path
       then if readsToEnd fs path then Returns true else NeverReturns
       else Returns false) /\
    mThreadRunning (final (installELF fs path s)) =
      (comesBack fs path && mThreadRunning s) /\
    cache (final (installELF fs path s)) =
      (if comesBack fs path then invalidate (cache s) else cache s) /\
    flash (final (installELF fs path s)) =
      if opened fs path then applyWrites ws (chipErase (flash s)) else flash s.
Proof.
  unfold installELF, installTrace, comesBack, opened, readsToEnd, fopen.
  destruct (fs path) as [src|].
  - set (f := {| unread := content src; later := resumed src;
                 atEnd := ending src; eof := false |}).
    assert (Hre : reachesEnd f =
                  match ending src with EndOfFile => true | ReadError => false end)
      by reflexivity.
    unfold stop, start, FlashDevice_chipErase, FlashBlock_invalidate.
    destruct (mThreadRunning s) eqn:Hrun.
    + sim_unfold. cbn. rewrite Hrun. cbn.
      match goal with |- context [writeLoop 0 f ?s1] =>
        destruct (writeLoop_spec 0 f s1) as (ws & He & Hseq & Hcat & Hfin & Hres);
        revert He Hfin Hres; unfold events, final, result;
        destruct (writeLoop 0 f s1) as [[u s2] t2] end.
      cbn [fst snd]. intros -> -> ->. exists ws. rewrite Hre.
      destruct src as [c r e]. cbn [ending].
      destruct e; cbn; (split; [split; assumption |]);
        repeat split; rewrite <- ?app_assoc, ?app_nil_r; reflexivity.
    + sim_unfold. cbn. rewrite Hrun. cbn.
      match goal with |- context [writeLoop 0 f ?s1] =>
        destruct (writeLoop_spec 0 f s1) as (ws & He & Hseq & Hcat & Hfin & Hres);
        revert He Hfin Hres; unfold events, final, result;
        destruct (writeLoop 0 f s1) as [[u s2] t2] end.
      cbn [fst snd]. intros -> -> ->. exists ws. rewrite Hre.
      destruct src as [c r e]. cbn [ending].
      destruct e; cbn; rewrite ?Hrun; (split; [split; assumption |]);
        repeat split; rewrite <- ?app_assoc, ?app_nil_r; reflexivity.
  - exists []. unfold stop, start, FlashBlock_invalidate. sim_unfold. cbn.
    destruct (mThreadRunning s) eqn:Hrun; cbn; rewrite ?Hrun; repeat split.
Qed.

End InstallRunFacts.

Section InstallTraceFacts.

Context {K : Constants} {R : RadioManager} {C : CubeSim} {F : FlashSim}.

(** Sequential writes of more than [capacity] bytes in all, with no
    wrap-around of the address, end beyond [capacity]. *)
Lemma sequentialFrom_beyond capacity ws : forall addr,
  sequentialFrom addr ws -> ws <> [] ->
  0 <= addr ->
  addr + Z.of_nat (length (concat (map snd ws))) < 2 ^ 32 ->
  capacity < addr + Z.of_nat (length (concat (map snd ws))) ->
  existsb (beyond capacity) ws = true.
Proof.
  induction ws as [|[a data] ws IH]; intros addr Hseq Hne Haddr Hfit Hcap;
    [congruence|].
  cbn [sequentialFrom] in Hseq. destruct Hseq as (-> & Hlen & Hseq).
  cbn [map concat snd] in Hfit, Hcap.
  rewrite length_app, Nat2Z.inj_add in Hfit, Hcap.
  cbn [existsb]. apply orb_true_iff.
  destruct ws as [|w ws].
  - left. unfold beyond. cbn [fst snd]. apply Z.ltb_lt.
    cbn in Hcap. lia.
  - right. unfold u32 in Hseq. rewrite Z.mod_small in Hseq by lia.
    apply (IH _ Hseq); [discriminate | lia | lia | lia].
Qed.

(** The thread calls, the flash accesses and the invalidations among the
    events of an installation. *)
Lemma installTrace_threadCalls running path found ws :
  filter isThreadCall (installTrace running path found ws) =
  (if running then [EvWake; EvJoin] else []) ++
  (if running && match found with
                 | Some {| ending := ReadError |} => false
                 | _ => true
                 end
   then [EvSpawn] else []).
Proof.
  unfold installTrace.
  destruct running, found as [[c r [|]]|]; cbn;
    rewrite ?filter_app, ?filter_writeEvents by reflexivity; reflexivity.
Qed.

Lemma installTrace_flashAccesses running path found ws :
  filter isFlashAccess (installTrace running path found ws) =
  match found with
  | Some _ => EvChipErase :: writeEvents ws
  | None => []
  end.
Proof.
  unfold installTrace.
  assert (Hw : filter isFlashAccess (writeEvents ws) = writeEvents ws).
  { unfold writeEvents. induction ws as [|[a data] ws IH]; [reflexivity|].
    cbn. rewrite IH. reflexivity. }
  destruct running, found as [[c r [|]]|]; cbn;
    rewrite ?filter_app, ?Hw; cbn; rewrite ?app_nil_r; reflexivity.
Qed.

Lemma installTrace_writes running path found ws :
  writes (installTrace running path found ws) =
  match found with
  | Some _ => ws
  | None => []
  end.
Proof.
  unfold installTrace.
  destruct running, found as [[c r [|]]|]; cbn;
    rewrite ?writes_app, ?writes_writeEvents; cbn; rewrite ?app_nil_r;
    reflexivity.
Qed.

Lemma installELF_writes fs path s :
  match fs path with
  | Some src =>
      sequentialFrom 0 (writes (events (installELF fs path s))) /\
      concat (map snd (writes (events (installELF fs path s)))) = delivered src
  | None => writes (events (installELF fs path s)) = []
  end /\
  flash (final (installELF fs path s)) =
    if opened fs path
    then applyWrites (writes (events (installELF fs path s))) (chipErase (flash s))
    else flash s.
Proof.
  destruct (installELF_run fs path s) as (ws & Hws & He & _ & _ & _ & Hfl).
  rewrite He, installTrace_writes. unfold opened in *.
  destruct (fs path); [split; assumption | split; [reflexivity | exact Hfl]].
Qed.

(** How an installation ends, by what is at the path. *)
Lemma installELF_result fs path s :
  (result (installELF fs path s) = Returns true <->
   exists src, fs path = Some src /\ ending src = EndOfFile) /\
  (result (installELF fs path s) = Returns false <-> fs path = None) /\
  (result (installELF fs path s) = NeverReturns <->
   exists src, fs path = Some src /\ ending src = ReadError).
Proof.
  destruct (installELF_run fs path s) as (_ & _ & _ & Hres & _).
  rewrite Hres. unfold opened, readsToEnd.
  destruct (fs path) as [[c r [|]]|]; cbn [ending].
  all: repeat split; try discriminate; try reflexivity.
  all: try (intros (src & Hs & He); try discriminate Hs;
            injection Hs as <-; discriminate He).
  all: intros _; eexists; split; reflexivity.
Qed.

(** On a machine whose thread is running an installation is: the stop,
    the installation as on the stopped machine, and the start when that
    installation returns. *)
Lemma installELF_stopped_first fs path s :
  mThreadRunning s = true ->
  installELF fs path s =
  let run := installELF fs path (final (stop s)) in
  (result run,
   match result run with
   | Returns _ => final (start (final run))
   | NeverReturns => final run
   end,
   [EvWake; EvJoin] ++ events run ++
   match result run with
   | Returns _ => [EvSpawn]
   | NeverReturns => []
   end).
Proof.
  intros Hrun. unfold installELF, fopen.
  unfold stop, start, FlashDevice_chipErase, FlashBlock_invalidate.
  sim_unfold. cbn. rewrite Hrun. cbn.
  destruct (fs path) as [src|]; cbn; [| reflexivity].
  match goal with |- context [writeLoop 0 ?f ?s1] =>
    destruct (writeLoop 0 f s1) as [[[[]|] s2] t2] end; cbn;
    rewrite <- ?app_assoc, ?app_nil_r; reflexivity.
Qed.

End InstallTraceFacts.

(** ** The passes of the retry loop *)

Section PassFacts.

Context {K : Constants} {R : RadioManager} {C : CubeSim} {F : FlashSim}.

(** The lookup returns the index of one of the cubes it scans. *)
Lemma scanCubes_bound packed cs : forall k i,
  scanCubes packed k cs = Some i -> (k <= i < k + length cs)%nat.
Proof.
  induction cs as [|c cs IH]; intros k i; cbn [scanCubes length].
  - discriminate.
  - destruct (getPackedRXAddr c =? packed).
    + intros H. injection H as <-. lia.
    + intros H. apply IH in H. lia.
Qed.

(** One pass: one window, and one delivery exactly when the lookup finds
    a cube. *)
Lemma attempt_pass d packet reply retry s :
  length (deliveries (events (attempt d packet reply retry s))) =
  match result (getCubeForAddress d (final (beginPacket s))) with
  | Some _ => 1%nat
  | None => 0%nat
  end.
Proof.
  unfold attempt, Cube_handlePacket; sim_unfold; cbn.
  destruct (scanCubes _ _ _) as [i|] eqn:Hscan; cbn.
  - apply scanCubes_bound in Hscan. rewrite length_firstn in Hscan.
    destruct (nth_error _ i) as [hw|] eqn:Hnth.
    + destruct (handlePacket _ _ _) as [[ack tx] hw']. cbn.
      destruct (opt_radioTrace s); reflexivity.
    + apply nth_error_None in Hnth. lia.
  - destruct (opt_radioTrace s); reflexivity.
Qed.

Lemma retryLoop_passes d packet remaining : forall retry reply s,
  let evs := events (retryLoop remaining retry d packet reply s) in
  let ps := passes remaining retry d packet reply s in
  attempts evs = length ps /\
  length (deliveries evs) = length (filter isDelivered ps).
Proof.
  induction remaining as [|n IH]; intros retry reply s; cbn [retryLoop passes].
  - split; reflexivity.
  - cbv zeta. rewrite bind_events, attempts_app, deliveries_app, length_app.
    rewrite attempt_attempts, attempt_pass.
    destruct (result (getCubeForAddress d (final (beginPacket s)))) as [i|];
      cbn [filter isDelivered length].
    all: specialize (IH (S retry) (snd (result (attempt d packet reply retry s)))
                        (final (attempt d packet reply retry s))).
    all: revert IH; generalize (attempt d packet reply retry s);
      intros [[[ack tx] s'] evs]; unfold result, final, events; cbn [fst snd];
      intros [I1 I2].
    all: destruct ack;
      [ destruct (negb (len tx =? 0)); split; reflexivity
      | rewrite I1, I2; split; reflexivity ].
Qed.

Lemma doRadioPacket_passes s :
  attempts (events (doRadioPacket s)) = length (transactionPasses s) /\
  length (deliveries (events (doRadioPacket s))) =
    length (filter isDelivered (transactionPasses s)).
Proof.
  rewrite doRadioPacket_unfold. unfold transactionPasses. cbv zeta.
  destruct (dest (fst (produce (radio s)))) as [d|]; [| split; reflexivity].
  match goal with |- context [retryLoop ?n ?k ?d ?p ?r ?s1] =>
    destruct (retryLoop_passes d p n k r s1) as [H1 H2] end.
  unfold events in *. cbn [snd].
  change (attempts (EvProduce ?p :: ?l)) with (attempts l).
  change (deliveries (EvProduce ?p :: ?l)) with (deliveries l).
  split; assumption.
Qed.

Lemma pump_passes n : forall s,
  attempts (events (pump n s)) = length (pumpPasses n s) /\
  length (deliveries (events (pump n s))) =
    length (filter isDelivered (pumpPasses n s)).
Proof.
  induction n as [|n IH]; intros s; cbn [pump pumpPasses]; [split; reflexivity |].
  rewrite bind_events, Radio_halt_unfold.
  destruct (mThreadRunning s); [| split; reflexivity].
  rewrite attempts_app, deliveries_app, filter_app, !length_app.
  destruct (doRadioPacket_passes s) as [H1 H2]. rewrite H1, H2.
  destruct (result (doRadioPacket s)).
  - destruct (IH (final (doRadioPacket s))) as [I1 I2]. rewrite I1, I2.
    split; reflexivity.
  - split; reflexivity.
  - split; reflexivity.
Qed.

End PassFacts.

(** * The statements of the specification *)

Section RadioClaims.

Context {K : Constants} {R : RadioManager} {C : CubeSim} {F : FlashSim}.

(** C1.  A transaction whose produced destination is not null returns and
    delivers exactly one report to the consuming layer, the one its
    outcome calls for: [ackWithPacket] with the reply bytes when a cube
    acknowledged with a non-empty reply, [ackEmpty] when it acknowledged
    with an empty one, [timeout] when no delivery was acknowledged, and in
    that case all [MAX_RETRIES] attempts were made. *)
Theorem doRadioPacket_exactly_one_report (s : SystemMC) (d : RadioAddress) :
  dest (fst (produce (radio s))) = Some d ->
  let run := doRadioPacket s in
  result run = Returned /\
  reports (events run) = [reportFor (firstAck (events run))] /\
  (firstAck (events run) = None -> attempts (events run) = MAX_RETRIES).
Proof.
  intros Hd. cbv zeta. rewrite doRadioPacket_unfold. cbv zeta. rewrite Hd.
  unfold result, events. cbn [fst snd].
  match goal with |- context [retryLoop ?n ?k ?d ?p ?r ?s1] =>
    destruct (retryLoop_report d p n k r s1) as [H1 H2] end.
  repeat split; [exact H1 | exact H2].
Qed.

(** C2.  Over any sequence of [n] transactions the clock moves by one
    [TICKS_PER_PACKET] for every pass through the body of the retry
    loop, the first attempt of a transaction and each retry alike,
    whether the pass found no cube, delivered without acknowledgement or
    was acknowledged: every pass opens one window, the one of the
    [k]-th pass at the start value plus [k] quanta, the passes that found
    a cube are the deliveries, and the final value is the start value
    plus one quantum for each pass, in the 64-bit arithmetic of the
    counter.  As long as the counter does not overflow these are exact
    sums and the clock never decreases. *)
Theorem pump_clock_one_quantum_per_attempt (n : nat) (s : SystemMC) :
  0 <= ticks s < 2 ^ 64 ->
  let run := pump n s in
  let a := length (pumpPasses n s) in
  attempts (events run) = a /\
  length (deliveries (events run)) =
    length (filter isDelivered (pumpPasses n s)) /\
  ticks (final run) = u64 (ticks s + Z.of_nat a * TICKS_PER_PACKET) /\
  opens (events run) =
    map (fun k => u64 (ticks s + Z.of_nat k * TICKS_PER_PACKET)) (seq 1 a) /\
  (0 <= TICKS_PER_PACKET ->
   ticks s + Z.of_nat a * TICKS_PER_PACKET < 2 ^ 64 ->
   ticks (final run) = ticks s + Z.of_nat a * TICKS_PER_PACKET /\
   opens (events run) =
     map (fun k => ticks s + Z.of_nat k * TICKS_PER_PACKET) (seq 1 a) /\
   ticks s <= ticks (final run)).
Proof.
  intros Ht. cbv zeta.
  destruct (pump_passes n s) as [Ha Hd].
  destruct (pump_clock n s) as (Ho & _ & _ & Hf).
  rewrite Ha in Ho, Hf.
  split; [exact Ha |]. split; [exact Hd |].
  rewrite Hf, Ho, advance_closed by exact Ht.
  split; [reflexivity|]. split.
  - rewrite windows_closed by exact Ht. rewrite map_map. reflexivity.
  - intros Hq Hno. rewrite u64_small by nia.
    split; [reflexivity|]. split; [| nia].
    apply opens_exact; lia.
Qed.

(** C3.  When the destination resolves to no cube at any of the attempts,
    the transaction is exactly: the produced packet, [MAX_RETRIES]
    rendezvous windows one quantum apart with no delivery in them, and
    one [timeout] report, after which nothing follows; the clock has
    advanced by [MAX_RETRIES] quanta. *)
Theorem doRadioPacket_unresolvable_times_out (s : SystemMC) (d : RadioAddress) :
  dest (fst (produce (radio s))) = Some d ->
  0 <= ticks s < 2 ^ 64 ->
  (forall k, (k < MAX_RETRIES)%nat ->
     result (getCubeForAddress d (final (beginPacket (missed k s)))) = None) ->
  let run := doRadioPacket s in
  result run = Returned /\
  protocol (events run) =
    EvProduce (fst (produce (radio s))) ::
    flat_map (fun k =>
                [EvBeginEventAt (u64 (ticks s + Z.of_nat k * TICKS_PER_PACKET))
                                (mThreadRunning s);
                 EvEndEvent (u64 (ticks s + Z.of_nat (S k) * TICKS_PER_PACKET))])
             (seq 1 MAX_RETRIES) ++ [EvTimeout] /\
  attempts (events run) = MAX_RETRIES /\
  reports (events run) = [EvTimeout] /\
  ticks (final run) = u64 (ticks s + Z.of_nat MAX_RETRIES * TICKS_PER_PACKET) /\
  (0 <= TICKS_PER_PACKET ->
   ticks s + Z.of_nat MAX_RETRIES * TICKS_PER_PACKET < 2 ^ 64 ->
   ticks (final run) = ticks s + Z.of_nat MAX_RETRIES * TICKS_PER_PACKET).
Proof.
  intros Hd Ht Hmiss. cbv zeta.
  destruct (doRadioPacket_clock s) as [(_ & _ & _ & Hclk) _].
  revert Hclk.
  rewrite doRadioPacket_unfold. cbv zeta. rewrite Hd.
  unfold result, final. cbn [fst snd].
  change (events (?e, ?s2, EvProduce ?p :: ?l)) with (EvProduce p :: l).
  match goal with |- context [retryLoop ?n ?k ?d ?p ?r ?s1] =>
    destruct (retryLoop_missed d p n k r s1) as [H1 H2];
      [ intros j Hj; rewrite missed_set_radio; exact (Hmiss j Hj) |];
    destruct (retryLoop_report d p n k r s1) as [Hrep Hatt]
  end.
  rewrite H2 in Hrep, Hatt. specialize (Hatt eq_refl).
  intros Hclk.
  assert (Ha : attempts (EvProduce (fst (produce (radio s))) ::
                         events (retryLoop MAX_RETRIES 0 d
                           {| len := ptx_len (fst (produce (radio s)));
                              payload := ptx_bytes (fst (produce (radio s))) |}
                           {| len := 0; payload := repeat 0 PAYLOAD_MAX |}
                           (set_radio (snd (produce (radio s))) s)))
               = MAX_RETRIES) by exact Hatt.
  split; [reflexivity|]. split.
  { change (protocol (EvProduce ?p :: ?l)) with (EvProduce p :: protocol l).
    rewrite H1. cbn [ticks set_radio mThreadRunning].
    rewrite idleWindows_closed by exact Ht. reflexivity. }
  split; [exact Ha|]. split; [exact Hrep|].
  rewrite Hclk, Ha, advance_closed by exact Ht.
  split; [reflexivity|]. intros Hq Hno. apply u64_small. nia.
Qed.

(** C4.  [doRadioPacket] ends in the failed assertion exactly when the
    produced destination is null; it has then opened no rendezvous,
    delivered no report and left the clock alone.  When the consuming
    layer never produces a null destination, no transaction of any
    sequence ends in the failed assertion. *)
Theorem doRadioPacket_null_destination_aborts (s : SystemMC) :
  (result (doRadioPacket s) = AssertionFailed <->
   dest (fst (produce (radio s))) = None) /\
  (dest (fst (produce (radio s))) = None ->
   events (doRadioPacket s) = [EvProduce (fst (produce (radio s)))] /\
   ticks (final (doRadioPacket s)) = ticks s) /\
  ((forall r, exists d, dest (fst (produce r)) = Some d) ->
   forall n, result (pump n s) <> AssertionFailed).
Proof.
  split; [| split].
  - rewrite doRadioPacket_result.
    destruct (dest _); split; intros H; (reflexivity || discriminate H).
  - intros H. rewrite doRadioPacket_unfold. cbv zeta. rewrite H.
    split; reflexivity.
  - intros H n. apply pump_never_asserts. exact H.
Qed.

(** C5.  Over any sequence of transactions, while the counter does not
    overflow, the bound of each rendezvous window is strictly greater
    than that of the window before: the [k]-th window is opened
    ([beginEventAt]) at the start value plus [k] quanta and re-armed
    ([endEvent]) one quantum later, so from one window to the next the
    opening bound and the re-armed bound both grow by a quantum, and
    within a window re-arming moves the bound up.  The bound handed to
    the synchronisation object never moves back. *)
Theorem pump_window_bounds (n : nat) (s : SystemMC) :
  let evs := events (pump n s) in
  let a := attempts evs in
  0 <= ticks s ->
  0 < TICKS_PER_PACKET ->
  ticks s + Z.of_nat (S a) * TICKS_PER_PACKET < 2 ^ 64 ->
  combine (opens evs) (closes evs) =
    map (fun k => (ticks s + Z.of_nat k * TICKS_PER_PACKET,
                   ticks s + Z.of_nat (S k) * TICKS_PER_PACKET)) (seq 1 a) /\
  length (opens evs) = a /\ length (closes evs) = a /\
  strictlyIncreasing (opens evs) = true /\
  strictlyIncreasing (closes evs) = true /\
  Forall (fun w => fst w < snd w) (combine (opens evs) (closes evs)) /\
  nonDecreasing (bounds evs) = true.
Proof.
  cbv zeta. intros Ht Hq Hno.
  destruct (pump_clock n s) as (Ho & Hc & Hb & _).
  rewrite windows_exact in Ho, Hc, Hb by lia.
  rewrite Ho, Hc, Hb.
  set (ws := map (fun k => (ticks s + Z.of_nat k * TICKS_PER_PACKET,
                            ticks s + Z.of_nat (S k) * TICKS_PER_PACKET))
                 (seq 1 (attempts (events (pump n s))))).
  assert (Hcomb : combine (map fst ws) (map snd ws) = ws).
  { clear. induction ws as [|[x y] ws IH]; [reflexivity |].
    cbn. rewrite IH. reflexivity. }
  rewrite Hcomb, !length_map.
  split; [reflexivity |].
  split; [unfold ws; rewrite length_map, length_seq; reflexivity |].
  split; [unfold ws; rewrite length_map, length_seq; reflexivity |].
  split; [| split; [| split]].
  - unfold ws. rewrite map_map. cbn [fst].
    apply strictlyIncreasing_steps. exact Hq.
  - unfold ws. rewrite map_map. cbn [snd].
    rewrite <- (map_map S (fun k => ticks s + Z.of_nat k * TICKS_PER_PACKET)).
    rewrite seq_shift. apply strictlyIncreasing_steps. exact Hq.
  - unfold ws. apply Forall_map. apply Forall_forall. intros k _.
    cbn [fst snd]. lia.
  - apply nonDecreasing_windows. lia.
Qed.

(** C9.  [SysTime::ticks] is the tick count times the constant
    [hzTicks(TICK_HZ / 16)], kept to 64 bits, divided by [2 ^ 4]; it is
    the exact fixed-point reference whenever the product fits 64 bits,
    and with a 16 MHz clock and the constant 1000 (62.5 ns a tick) it
    fits for every tick count of a run of up to 100000 hours, where the
    result is the whole number of nanoseconds in [62.5 * ticks]. *)
Theorem SysTime_ticks_fixed_point (s : SystemMC) :
  let k := hzTicks (TICK_HZ / 16) in
  SysTime_ticks s = u64 (ticks s * k) / 2 ^ 4 /\
  (0 <= ticks s -> 0 <= k -> ticks s * k < 2 ^ 64 ->
   SysTime_ticks s = toTime_reference k 4 (ticks s)) /\
  (TICK_HZ = 16000000 -> k = 1000 ->
   forall hours, 0 <= hours <= 100000 ->
   0 <= ticks s <= hours * 3600 * TICK_HZ ->
   ticks s * k < 2 ^ 64 /\
   SysTime_ticks s = toTime_reference k 4 (ticks s) /\
   2 * SysTime_ticks s <= 125 * ticks s < 2 * SysTime_ticks s + 2).
Proof.
  cbv zeta. unfold SysTime_ticks, toTime_reference.
  rewrite Z.shiftr_div_pow2 by lia.
  split; [reflexivity|]. split.
  - intros Ht Hk Hno. rewrite u64_small by nia. reflexivity.
  - intros Hhz Hk hours Hh Ht. rewrite Hk, Hhz in *.
    assert (Hno : ticks s * 1000 < 2 ^ 64) by nia.
    split; [exact Hno|]. rewrite u64_small by lia.
    split; [reflexivity|].
    change (2 ^ 4) with 16.
    pose proof (Z.div_mod (ticks s * 1000) 16 ltac:(lia)) as Hdm.
    pose proof (Z.mod_pos_bound (ticks s * 1000) 16 ltac:(lia)) as Hmb.
    assert (Hm8 : (ticks s * 1000) mod 16 = 8 * ((ticks s * 125) mod 2)).
    { replace (ticks s * 1000) with ((ticks s * 125) * 8) by lia.
      replace 16 with (2 * 8) by lia.
      rewrite Zmult_mod_distr_r. lia. }
    pose proof (Z.mod_pos_bound (ticks s * 125) 2 ltac:(lia)) as Hm2.
    lia.
Qed.

End RadioClaims.

Section InstallClaims.

Context {K : Constants} {R : RadioManager} {C : CubeSim} {F : FlashSim}.

(** C6, amended.  An image longer than the store's capacity (and shorter
    than [2 ^ 32] bytes) does not make [installELF] fail: it returns
    [true], and it hands the whole image to [FlashDevice::write] in
    consecutive chunks from address 0 with no check against the capacity,
    so that a write ends beyond the capacity. *)
Theorem installELF_oversize_image_is_written
    (fs : string -> option Source) (path : string)
    (image : list Byte.byte) (capacity : Z) (s : SystemMC) :
  fs path = Some (regularFile image) ->
  0 <= capacity < Z.of_nat (length image) ->
  Z.of_nat (length image) < 2 ^ 32 ->
  let run := installELF fs path s in
  result run = Returns true /\
  sequentialFrom 0 (writes (events run)) /\
  concat (map snd (writes (events run))) = image /\
  existsb (beyond capacity) (writes (events run)) = true.
Proof.
  intros Hopen Hcap Hfit. cbv zeta.
  destruct (installELF_run fs path s) as (_ & _ & _ & Hres & _).
  destruct (installELF_writes fs path s) as [Hw _].
  unfold opened, readsToEnd in Hres. rewrite Hopen in Hres, Hw.
  destruct Hw as [Hseq Hcat].
  change (delivered (regularFile image)) with (image ++ []) in Hcat.
  rewrite app_nil_r in Hcat.
  split; [exact Hres|]. split; [exact Hseq|]. split; [exact Hcat|].
  apply (sequentialFrom_beyond capacity _ 0 Hseq).
  - intros Hnil. rewrite Hnil in Hcat. cbn in Hcat. subst image. cbn in Hcap. lia.
  - lia.
  - rewrite Hcat. lia.
  - rewrite Hcat. lia.
Qed.

(** C7.  A call of [installELF] that returns, whether or not the file
    opened and whatever it held, has invalidated the flash block cache
    exactly once: the call on [FlashBlock::invalidate] comes after every
    flash access and every call that stops the thread, and only the
    restart of the thread, when there is one, follows it.  But a call
    does not return when the path opens and its reads fail without ever
    reaching the end of the file (a directory): the copy loop tests
    [feof] alone and goes round for ever, the flash erased, the cache
    never invalidated. *)
Theorem installELF_invalidates_cache_once
    (fs : string -> option Source) (path : string) (s : SystemMC) :
  let run := installELF fs path s in
  (result run = NeverReturns <->
   exists src, fs path = Some src /\ ending src = ReadError) /\
  (result run <> NeverReturns ->
   length (filter isInvalidate (events run)) = 1%nat /\
   cache (final run) = invalidate (cache s) /\
   exists before,
     events run =
       before ++ EvInvalidate :: (if mThreadRunning s then [EvSpawn] else []) /\
     filter isInvalidate before = [] /\
     filter isFlashAccess before = filter isFlashAccess (events run) /\
     filter isThreadCall before = if mThreadRunning s then [EvWake; EvJoin] else []) /\
  (result run = NeverReturns ->
   filter isInvalidate (events run) = [] /\
   cache (final run) = cache s /\
   hd_error (filter isFlashAccess (events run)) = Some EvChipErase).
Proof.
  cbv zeta.
  destruct (installELF_result fs path s) as (_ & _ & Hnever).
  split; [exact Hnever |].
  destruct (installELF_run fs path s) as (ws & _ & He & Hres & _ & Hc & _).
  rewrite He, Hres, Hc. unfold comesBack, opened, readsToEnd, installTrace.
  split.
  - destruct (fs path) as [[c r [|]]|]; cbn [ending negb orb];
      intros Hret; try congruence.
    + split; [| split; [reflexivity |]].
      { destruct (mThreadRunning s); cbn;
          rewrite ?filter_app, ?filter_writeEvents by reflexivity; reflexivity. }
      exists ((if mThreadRunning s then [EvWake; EvJoin] else []) ++
              EvInstallLog path :: EvFopen path true :: EvChipErase ::
              writeEvents ws ++ [EvFclose]).
      split; [| split; [| split]].
      * destruct (mThreadRunning s); cbn; rewrite <- ?app_assoc; reflexivity.
      * destruct (mThreadRunning s); cbn;
          rewrite ?filter_app, ?filter_writeEvents by reflexivity; reflexivity.
      * destruct (mThreadRunning s); cbn;
          rewrite !filter_app; cbn; rewrite ?app_nil_r; reflexivity.
      * destruct (mThreadRunning s); cbn;
          rewrite ?filter_app, ?filter_writeEvents by reflexivity; reflexivity.
    + split; [| split; [reflexivity |]].
      { destruct (mThreadRunning s); reflexivity. }
      exists ((if mThreadRunning s then [EvWake; EvJoin] else []) ++
              [EvInstallLog path; EvFopen path false; EvOpenError path]).
      destruct (mThreadRunning s); cbn; repeat split; reflexivity.
  - destruct (fs path) as [[c r [|]]|]; cbn [ending negb orb];
      intros Hret; try discriminate Hret.
    destruct (mThreadRunning s); cbn;
      rewrite ?filter_app, ?filter_writeEvents by reflexivity;
      repeat split; reflexivity.
Qed.

(** C8.  [installELF] does its work on a stopped machine: when the
    thread is running the call first stops it, which lowers
    [mThreadRunning] and joins the thread, and what it does then is the
    installation as on a machine whose thread is stopped, every flash
    access included, with no call on the thread and the flag left down.
    A call that returns starts the thread again when it was running,
    whether or not the installation succeeded, and leaves
    [mThreadRunning] as it found it.  But a call does not return when the
    path opens and its reads fail without ever reaching the end of the
    file (a directory): the thread that was running has been stopped
    and is never started again. *)
Theorem installELF_restores_thread_state
    (fs : string -> option Source) (path : string) (s : SystemMC) :
  let run := installELF fs path s in
  let quiesced := if mThreadRunning s then final (stop s) else s in
  mThreadRunning quiesced = false /\
  (mThreadRunning s = true -> mThread quiesced = false) /\
  events run =
    (if mThreadRunning s then [EvWake; EvJoin] else []) ++
    events (installELF fs path quiesced) ++
    (if mThreadRunning s
     then match result run with Returns _ => [EvSpawn] | NeverReturns => [] end
     else []) /\
  events (stop s) = [EvWake; EvJoin] /\
  filter isThreadCall (events (installELF fs path quiesced)) = [] /\
  filter isFlashAccess (events (installELF fs path quiesced)) =
    filter isFlashAccess (events run) /\
  mThreadRunning (final (installELF fs path quiesced)) = false /\
  (result run = NeverReturns <->
   exists src, fs path = Some src /\ ending src = ReadError) /\
  (result run <> NeverReturns -> mThreadRunning (final run) = mThreadRunning s) /\
  (result run = NeverReturns ->
   mThreadRunning (final run) = false /\
   filter isThreadCall (events run) =
     if mThreadRunning s then [EvWake; EvJoin] else []).
Proof.
  cbv zeta.
  set (q := if mThreadRunning s then final (stop s) else s).
  assert (Hq : mThreadRunning q = false).
  { unfold q. destruct (mThreadRunning s) eqn:Hrun; [reflexivity | exact Hrun]. }
  destruct (installELF_result fs path s) as (_ & _ & Hnever).
  destruct (installELF_run fs path q) as (wq & _ & Heq & _ & Hrq & _ & _).
  rewrite Hq in Heq, Hrq. rewrite andb_false_r in Hrq.
  split; [exact Hq |].
  split; [intros Hrun; unfold q; rewrite Hrun; reflexivity |].
  assert (Hev : events (installELF fs path s) =
                (if mThreadRunning s then [EvWake; EvJoin] else []) ++
                events (installELF fs path q) ++
                (if mThreadRunning s
                 then match result (installELF fs path s) with
                      | Returns _ => [EvSpawn]
                      | NeverReturns => []
                      end
                 else [])).
  { unfold q. destruct (mThreadRunning s) eqn:Hrun.
    - rewrite (installELF_stopped_first fs path s Hrun). cbv zeta.
      unfold result, events. cbn [fst snd]. reflexivity.
    - rewrite app_nil_r. reflexivity. }
  split; [exact Hev |].
  split; [reflexivity |].
  assert (Hth : filter isThreadCall (events (installELF fs path q)) = []).
  { rewrite Heq, installTrace_threadCalls. reflexivity. }
  split; [exact Hth |].
  split.
  { rewrite Hev, !filter_app.
    destruct (mThreadRunning s); cbn [filter isFlashAccess app];
      [destruct (result (installELF fs path s)) |]; cbn;
      rewrite app_nil_r; reflexivity. }
  split; [exact Hrq |].
  split; [exact Hnever |].
  destruct (installELF_run fs path s) as (ws & _ & He & Hres & Hr & _ & _).
  rewrite Hr, Hres, He, installTrace_threadCalls.
  unfold comesBack, opened, readsToEnd.
  destruct (fs path) as [[c r [|]]|]; cbn [ending negb orb andb].
  - split; [reflexivity | intros H; discriminate H].
  - split; [congruence |]. intros _. rewrite andb_false_r, app_nil_r.
    split; reflexivity.
  - split; [reflexivity | intros H; discriminate H].
Qed.

(** C10.  [installELF] returns [false] exactly when the file could not
    be opened, and [true] exactly when it was opened and its reads got to
    the end of the file: neither an empty file nor reads that come up
    short or fail on the way nor what the flash does with the writes
    turns the result into [false], and every byte the reads delivered
    has been written.  An empty file gives [true], no write, and a flash
    that is the erased one.  But a call returns nothing at all when the
    path opens and its reads fail without ever reaching the end of the
    file (a directory). *)
Theorem installELF_succeeds_iff_opened
    (fs : string -> option Source) (path : string) (s : SystemMC) :
  let run := installELF fs path s in
  (result run = Returns true <->
   exists src, fs path = Some src /\ ending src = EndOfFile) /\
  (result run = Returns false <-> fs path = None) /\
  (result run = NeverReturns <->
   exists src, fs path = Some src /\ ending src = ReadError) /\
  (forall src, fs path = Some src ->
   concat (map snd (writes (events run))) = delivered src /\
   flash (final run) =
     applyWrites (writes (events run)) (chipErase (flash s))) /\
  (fs path = Some (regularFile []) ->
   result run = Returns true /\
   writes (events run) = [] /\
   flash (final run) = chipErase (flash s)).
Proof.
  cbv zeta.
  destruct (installELF_result fs path s) as (Htrue & Hfalse & Hnever).
  split; [exact Htrue |]. split; [exact Hfalse |]. split; [exact Hnever |].
  destruct (installELF_writes fs path s) as [Hw Hfl].
  unfold opened in Hfl. split.
  - intros src Hsrc. rewrite Hsrc in Hw, Hfl. destruct Hw as [_ Hcat].
    split; assumption.
  - intros Hempty. rewrite Hempty in Hw, Hfl. destruct Hw as [Hseq Hcat].
    pose proof (sequentialFrom_empty _ _ Hseq Hcat) as Hnil.
    rewrite Hnil in Hfl. split; [| split; assumption].
    apply Htrue. exists (regularFile []). split; [exact Hempty | reflexivity].
Qed.

End InstallClaims.

(** * The statements on the sample platform *)

Section Scenarios.

Import Sample.

(** Scenario A: the cube's one-byte reply is the single report. *)
Lemma doRadioPacket_exactly_one_report_witness :
  dest (fst (produce (radio scenarioA))) = Some (address 0 [205; 171; 0; 0; 0]) /\
  let run := doRadioPacket scenarioA in
  result run = Returned /\
  reports (events run) = [reportFor (firstAck (events run))] /\
  (firstAck (events run) = None -> attempts (events run) = MAX_RETRIES).
Proof.
  split; [reflexivity |].
  apply (doRadioPacket_exactly_one_report scenarioA (address 0 [205; 171; 0; 0; 0])).
  reflexivity.
Defined.

(** Two transactions to a cube that never acknowledges: six passes, six
    deliveries, six quanta; and with no cube at all: six passes, no
    delivery, six quanta. *)
Lemma pump_clock_one_quantum_per_attempt_witness :
  0 <= ticks scenarioSilent < 2 ^ 64 /\
  pumpPasses 2 scenarioSilent = repeat (Delivered false) 6 /\
  length (deliveries (events (pump 2 scenarioSilent))) = 6%nat /\
  ticks (final (pump 2 scenarioSilent)) = 4000000 + 6 * 7200 /\
  pumpPasses 2 scenarioB = repeat NoCube 6 /\
  ticks (final (pump 2 scenarioB)) = 4000000 + 6 * 7200.
Proof.
  split; [cbn; lia |].
  split; [vm_compute; reflexivity |].
  destruct (pump_clock_one_quantum_per_attempt 2 scenarioSilent)
    as (_ & Hd & _ & _ & H); [cbn; lia |].
  destruct (pump_clock_one_quantum_per_attempt 2 scenarioB)
    as (_ & _ & _ & _ & H'); [cbn; lia |].
  split; [rewrite Hd; vm_compute; reflexivity |].
  destruct H as (H & _); [cbn; lia | vm_compute; reflexivity |].
  destruct H' as (H' & _); [cbn; lia | vm_compute; reflexivity |].
  split; [rewrite H; vm_compute; reflexivity |].
  split; [vm_compute; reflexivity |].
  rewrite H'. vm_compute. reflexivity.
Defined.

(** Scenario B: three attempts, one timeout, three quanta. *)
Lemma doRadioPacket_unresolvable_times_out_witness :
  reports (events (doRadioPacket scenarioB)) = [EvTimeout] /\
  attempts (events (doRadioPacket scenarioB)) = 3%nat /\
  ticks (final (doRadioPacket scenarioB)) = 4000000 + 3 * 7200.
Proof.
  destruct (doRadioPacket_unresolvable_times_out scenarioB
              (address 0 [205; 171; 0; 0; 0]))
    as (_ & _ & Ha & Hr & _ & Ht).
  - reflexivity.
  - cbn; lia.
  - intros k Hk. destruct k as [|[|[|k]]]; [reflexivity .. |].
    cbn in Hk. lia.
  - split; [exact Hr |]. split; [exact Ha |].
    apply Ht; [cbn; lia | vm_compute; reflexivity].
Defined.

(** A null destination: the assertion fails right after [produce]. *)
Lemma doRadioPacket_null_destination_aborts_witness :
  result (doRadioPacket scenarioNull) = AssertionFailed /\
  events (doRadioPacket scenarioNull) =
    [EvProduce (fst (produce (radio scenarioNull)))].
Proof.
  destruct (doRadioPacket_null_destination_aborts scenarioNull)
    as ([_ H1] & H2 & _).
  split; [apply H1; reflexivity | apply H2; reflexivity].
Defined.

(** Two transactions of scenario B: six windows, each opened a quantum
    after the one before and re-armed a quantum after it was opened. *)
Lemma pump_window_bounds_witness :
  combine (opens (events (pump 2 scenarioB))) (closes (events (pump 2 scenarioB))) =
    [(4007200, 4014400); (4014400, 4021600); (4021600, 4028800);
     (4028800, 4036000); (4036000, 4043200); (4043200, 4050400)] /\
  strictlyIncreasing (opens (events (pump 2 scenarioB))) = true /\
  strictlyIncreasing (closes (events (pump 2 scenarioB))) = true.
Proof.
  destruct (pump_window_bounds 2 scenarioB) as (Hw & _ & _ & Ho & Hc & _).
  - cbn; lia.
  - cbn; lia.
  - vm_compute. reflexivity.
  - split; [rewrite Hw; vm_compute; reflexivity |]. split; assumption.
Defined.

(** C6 as stated fails on the 1024-byte store: a 1025-byte image is
    installed with result [true], its last write at address 1024. *)
Lemma installELF_oversize_image_does_not_fail :
  disk "big.elf" = Some (regularFile (repeat Byte.x2a 1025)) /\
  capacity = 1024 /\
  result (installELF disk "big.elf" scenarioB) = Returns true /\
  map (fun w => (fst w, length (snd w)))
      (writes (events (installELF disk "big.elf" scenarioB))) =
    [(0, 512%nat); (512, 512%nat); (1024, 1%nat)].
Proof. repeat split; vm_compute; reflexivity. Qed.

Lemma installELF_oversize_image_is_written_witness :
  result (installELF disk "big.elf" scenarioB) = Returns true /\
  existsb (beyond capacity)
          (writes (events (installELF disk "big.elf" scenarioB))) = true.
Proof.
  destruct (installELF_oversize_image_is_written disk "big.elf"
              (repeat Byte.x2a 1025) capacity scenarioB) as (Hr & _ & _ & Hb).
  - reflexivity.
  - vm_compute. split; [discriminate | reflexivity].
  - vm_compute. reflexivity.
  - split; [exact Hr | exact Hb].
Defined.

(** The installation of a directory on scenario A: the thread is
    stopped, the flash erased, and the copy loop never ends; the cache
    is never invalidated. *)
Lemma installELF_invalidates_cache_once_witness :
  disk "games" = Some directory /\
  result (installELF disk "games" scenarioA) = NeverReturns /\
  events (installELF disk "games" scenarioA) =
    [EvWake; EvJoin; EvInstallLog "games"; EvFopen "games" true; EvChipErase] /\
  filter isInvalidate (events (installELF disk "games" scenarioA)) = [] /\
  cache (final (installELF disk "games" scenarioA)) = cache scenarioA.
Proof.
  destruct (installELF_invalidates_cache_once disk "games" scenarioA)
    as ([_ Hnever] & _ & Hbad).
  assert (Hres : result (installELF disk "games" scenarioA) = NeverReturns).
  { apply Hnever. exists directory. split; reflexivity. }
  destruct (Hbad Hres) as (Hi & Hc & _).
  split; [reflexivity |]. split; [exact Hres |].
  split; [vm_compute; reflexivity |]. split; [exact Hi | exact Hc].
Defined.

(** The same installation: the thread that was running is left stopped,
    with no call that starts it again. *)
Lemma installELF_restores_thread_state_witness :
  mThreadRunning scenarioA = true /\
  result (installELF disk "games" scenarioA) = NeverReturns /\
  mThreadRunning (final (installELF disk "games" scenarioA)) = false /\
  filter isThreadCall (events (installELF disk "games" scenarioA)) =
    [EvWake; EvJoin].
Proof.
  destruct (installELF_restores_thread_state disk "games" scenarioA)
    as (_ & _ & _ & _ & _ & _ & _ & [_ Hnever] & _ & Hbad).
  assert (Hres : result (installELF disk "games" scenarioA) = NeverReturns).
  { apply Hnever. exists directory. split; reflexivity. }
  destruct (Hbad Hres) as (Hr & Ht).
  split; [reflexivity |]. split; [exact Hres |]. split; [exact Hr | exact Ht].
Defined.

(** Four million ticks are a quarter of a second. *)
Lemma SysTime_ticks_fixed_point_witness :
  SysTime_ticks scenarioA = toTime_reference 1000 4 4000000 /\
  SysTime_ticks scenarioA = 250000000.
Proof.
  destruct (SysTime_ticks_fixed_point scenarioA) as (_ & H & _).
  split; [| vm_compute; reflexivity].
  apply H; [cbn; lia | vm_compute; discriminate | vm_compute; reflexivity].
Defined.

(** An empty image: success, no write, the erased store.  An image whose
    reads fail once on the way: success all the same.  A directory: no
    result at all. *)
Lemma installELF_succeeds_iff_opened_witness :
  result (installELF disk "empty.elf" scenarioB) = Returns true /\
  writes (events (installELF disk "empty.elf" scenarioB)) = [] /\
  flash (final (installELF disk "empty.elf" scenarioB)) =
    chipErase (flash scenarioB) /\
  result (installELF disk "flaky.elf" scenarioB) = Returns true /\
  map (fun w => (fst w, length (snd w)))
      (writes (events (installELF disk "flaky.elf" scenarioB))) =
    [(0, 100%nat); (100, 512%nat); (612, 88%nat)] /\
  result (installELF disk "games" scenarioB) = NeverReturns.
Proof.
  destruct (installELF_succeeds_iff_opened disk "empty.elf" scenarioB)
    as (_ & _ & _ & _ & H).
  destruct (installELF_succeeds_iff_opened disk "flaky.elf" scenarioB)
    as ([_ Htrue] & _).
  destruct (installELF_succeeds_iff_opened disk "games" scenarioB)
    as (_ & _ & [_ Hnever] & _).
  destruct (H eq_refl) as (H1 & H2 & H3).
  split; [exact H1 |]. split; [exact H2 |]. split; [exact H3 |].
  split; [apply Htrue; eexists; split; reflexivity |].
  split; [vm_compute; reflexivity |].
  apply Hnever. exists directory. split; reflexivity.
Defined.

End Scenarios.

(** * Further properties of the code *)

(** ** The address lookup *)

Section ScanFacts.
Context {K : Constants} {R : RadioManager} {C : CubeSim} {F : FlashSim}.

Lemma scanCubes_spec packed cs : forall k,
  match scanCubes packed k cs with
  | Some i =>
      (k <= i < k + length cs)%nat /\
      exists hw, nth_error cs (i - k) = Some hw /\
                 getPackedRXAddr hw = packed /\
                 forall j hw', (j < i - k)%nat -> nth_error cs j = Some hw' ->
                               getPackedRXAddr hw' <> packed
  | None =>
      forall j hw', nth_error cs j = Some hw' -> getPackedRXAddr hw' <> packed
  end.
Proof.
  induction cs as [|c cs IH]; intros k; cbn [scanCubes].
  - intros j hw' H. destruct j; discriminate H.
  - destruct (Z.eqb_spec (getPackedRXAddr c) packed) as [He | Hne].
    + split; [cbn; lia |]. exists c. rewrite Nat.sub_diag.
      split; [reflexivity |]. split; [exact He |]. intros j hw' Hj. lia.
    + specialize (IH (S k)). destruct (scanCubes packed (S k) cs) as [i|].
      * destruct IH as (Hr & hw & Hn & Hm & Hbefore).
        split; [cbn; lia |]. exists hw.
        replace (i - k)%nat with (S (i - S k)) by lia.
        split; [exact Hn |]. split; [exact Hm |].
        intros j hw' Hj Hnth. destruct j as [|j].
        -- cbn in Hnth. injection Hnth as <-. exact Hne.
        -- apply (Hbefore j hw'); [lia | exact Hnth].
      * intros j hw' Hnth. destruct j as [|j].
        -- cbn in Hnth. injection Hnth as <-. exact Hne.
        -- apply (IH j hw'). exact Hnth.
Qed.

Lemma nth_error_firstn_Some {A} (l : list A) n j x :
  nth_error (firstn n l) j = Some x <-> (j < n)%nat /\ nth_error l j = Some x.
Proof.
  revert n j. induction l as [|y l IH]; intros n j.
  - rewrite firstn_nil. split; [destruct j; discriminate | intros [_ H]; exact H].
  - destruct n as [|n]; cbn [firstn].
    + split; [destruct j; discriminate | intros [H _]; lia].
    + destruct j as [|j]; cbn [nth_error].
      * split; [intros H; split; [lia | exact H] | intros [_ H]; exact H].
      * rewrite IH. split; intros [H1 H2]; (split; [lia | exact H2]).
Qed.

(** X1.  [getCubeForAddress] returns the first cube, among the
    [opt_numCubes] cubes of the system, whose packed receive address is
    the packed destination: no cube before it has that address; and it
    returns null only when none of those cubes has it. *)
Theorem getCubeForAddress_first_match (addr : RadioAddress) (s : SystemMC) :
  match result (getCubeForAddress addr s) with
  | Some i =>
      (i < opt_numCubes s)%nat /\
      exists hw, nth_error (cubes s) i = Some hw /\
                 getPackedRXAddr hw = pack addr /\
                 forall j hw', (j < i)%nat -> nth_error (cubes s) j = Some hw' ->
                               getPackedRXAddr hw' <> pack addr
  | None =>
      forall j hw', (j < opt_numCubes s)%nat -> nth_error (cubes s) j = Some hw' ->
                    getPackedRXAddr hw' <> pack addr
  end.
Proof.
  unfold getCubeForAddress, gets, result. cbn [fst].
  pose proof (scanCubes_spec (pack addr) (firstn (opt_numCubes s) (cubes s)) 0) as H.
  destruct (scanCubes _ _ _) as [i|].
  - destruct H as (_ & hw & Hn & Hm & Hbefore).
    rewrite Nat.sub_0_r in Hn, Hbefore.
    apply nth_error_firstn_Some in Hn. destruct Hn as [Hi Hn].
    split; [exact Hi |]. exists hw. split; [exact Hn |]. split; [exact Hm |].
    intros j hw' Hj Hnth. apply (Hbefore j hw' Hj).
    apply nth_error_firstn_Some. split; [lia | exact Hnth].
  - intros j hw' Hj Hnth. apply (H j hw').
    apply nth_error_firstn_Some. split; [exact Hj | exact Hnth].
Qed.

End ScanFacts.

(** ** More on attempts and transactions *)

Section MoreEventLists.

Lemma logs_app l1 l2 : logs (l1 ++ l2) = logs l1 ++ logs l2.
Proof.
  induction l1 as [|e l1 IH]; [reflexivity|].
  destruct e; cbn; rewrite ?IH; reflexivity.
Qed.

Lemma produced_app l1 l2 : produced (l1 ++ l2) = produced l1 ++ produced l2.
Proof.
  induction l1 as [|e l1 IH]; [reflexivity|].
  destruct e; cbn; rewrite ?IH; reflexivity.
Qed.

Lemma insideWindows_app l1 l2 : forall b,
  insideWindows b l1 = true -> insideWindows false l2 = true ->
  insideWindows b (l1 ++ l2) = true.
Proof.
  induction l1 as [|e l1 IH]; intros b H1 H2.
  - cbn in H1. destruct b; [discriminate | exact H2].
  - destruct e, b; cbn in H1 |- *; try discriminate H1; apply IH; assumption.
Qed.

End MoreEventLists.

(* One attempt, with the equation of the address lookup kept. *)
Ltac attempt_lookup s Hscan :=
  unfold attempt, Cube_handlePacket; sim_unfold; cbn;
  destruct (scanCubes _ _ _) as [?i|] eqn:Hscan; cbn;
  [ destruct (nth_error _ _) as [?hw|]; cbn;
    [ destruct (handlePacket _ _ _) as [[[|] ?tx] ?hw']; cbn | ] | ];
  destruct (opt_radioTrace s); cbn.

Section MoreAttemptFacts.
Context {K : Constants} {R : RadioManager} {C : CubeSim} {F : FlashSim}.

Variables (d : RadioAddress) (packet : Packet).

Lemma attempt_insideWindows reply retry s :
  insideWindows false (events (attempt d packet reply retry s)) = true.
Proof. attempt_cases s; reflexivity. Qed.

Lemma attempt_options reply retry s :
  opt_radioTrace (final (attempt d packet reply retry s)) = opt_radioTrace s /\
  opt_numCubes (final (attempt d packet reply retry s)) = opt_numCubes s.
Proof.
  unfold attempt, Cube_handlePacket; sim_unfold; cbn.
  destruct (scanCubes _ _ _) as [i|]; cbn;
    [ destruct (nth_error _ _) as [hw|]; cbn;
      [ destruct (handlePacket _ _ _) as [[[|] tx] hw']; cbn | ] | ];
    destruct (opt_radioTrace s) eqn:Ht; cbn; rewrite ?Ht; split; reflexivity.
Qed.

Lemma attempt_logs reply retry s :
  length (logs (events (attempt d packet reply retry s))) =
  if opt_radioTrace s then 1%nat else 0%nat.
Proof.
  unfold attempt, Cube_handlePacket; sim_unfold; cbn.
  destruct (scanCubes _ _ _) as [i|]; cbn;
    [ destruct (nth_error _ _) as [hw|]; cbn;
      [ destruct (handlePacket _ _ _) as [[[|] tx] hw']; cbn | ] | ];
    destruct (opt_radioTrace s) eqn:Ht; cbn; reflexivity.
Qed.

Lemma attempt_deliveries reply retry s :
  (length (deliveries (events (attempt d packet reply retry s))) <= 1)%nat /\
  Forall (fun cp => (fst cp < opt_numCubes s)%nat /\ snd cp = packet)
         (deliveries (events (attempt d packet reply retry s))).
Proof.
  attempt_lookup s Hscan; (split; [lia |]); try constructor; try constructor.
  all: cbn [fst snd]; try reflexivity.
  all: match goal with
       | H : scanCubes ?p 0 (firstn ?n ?cs) = Some ?i |- _ =>
           pose proof (scanCubes_spec p (firstn n cs) 0) as Hs; rewrite H in Hs;
           destruct Hs as ((_ & Hlt) & _); rewrite length_firstn in Hlt; lia
       end.
Qed.

End MoreAttemptFacts.

Section MoreTransactionFacts.
Context {K : Constants} {R : RadioManager} {C : CubeSim} {F : FlashSim}.

Variables (d : RadioAddress) (packet : Packet).

Lemma retryLoop_counts remaining : forall retry reply s,
  let evs := events (retryLoop remaining retry d packet reply s) in
  (attempts evs <= remaining)%nat /\
  (length (deliveries evs) <= attempts evs)%nat /\
  Forall (fun cp => (fst cp < opt_numCubes s)%nat /\ snd cp = packet)
         (deliveries evs) /\
  insideWindows false evs = true /\
  length (logs evs) = (if opt_radioTrace s then attempts evs else 0%nat) /\
  length (reports evs) = 1%nat /\
  produced evs = [].
Proof.
  induction remaining as [|n IH]; intros retry reply s; cbn [retryLoop].
  - cbn. repeat split; try lia; try constructor.
    destruct (opt_radioTrace s); reflexivity.
  - cbv zeta.
    rewrite bind_events, attempts_app, deliveries_app, logs_app, reports_app,
      produced_app, length_app, length_app, length_app.
    rewrite attempt_attempts, attempt_logs, attempt_reports.
    pose proof (attempt_deliveries d packet reply retry s) as [Hd1 Hd2].
    pose proof (attempt_insideWindows d packet reply retry s) as Hw.
    pose proof (attempt_options d packet reply retry s) as [Ho1 Ho2].
    assert (Hp : produced (events (attempt d packet reply retry s)) = []).
    { attempt_cases s; reflexivity. }
    rewrite Hp. clear Hp.
    revert Hd1 Hd2 Hw Ho1 Ho2.
    generalize (attempt d packet reply retry s). intros [[[ack tx] s'] evs].
    unfold result, final, events. cbn [fst snd]. intros Hd1 Hd2 Hw Ho1 Ho2.
    destruct ack.
    + assert (Hk : forall m : Sim unit,
                 (m = RadioManager_ackWithPacket
                        {| bytes := payload tx; buflen := len tx |} \/
                  m = RadioManager_ackEmpty) ->
                 attempts (snd (m s')) = 0%nat /\ deliveries (snd (m s')) = [] /\
                 insideWindows false (snd (m s')) = true /\
                 logs (snd (m s')) = [] /\ length (reports (snd (m s'))) = 1%nat /\
                 produced (snd (m s')) = []).
      { intros m [-> | ->]; repeat split. }
      destruct (Hk (if negb (len tx =? 0)
                    then RadioManager_ackWithPacket
                           {| bytes := payload tx; buflen := len tx |}
                    else RadioManager_ackEmpty)) as (K1 & K2 & K3 & K4 & K5 & K6).
      { destruct (negb (len tx =? 0)); [left | right]; reflexivity. }
      rewrite K1, K2, K4, K5, K6, app_nil_r. cbn [length].
      repeat split; try lia; try assumption.
      * apply insideWindows_app; assumption.
      * destruct (opt_radioTrace s); reflexivity.
    + destruct (IH (S retry) tx s') as (I1 & I2 & I3 & I4 & I5 & I6 & I7).
      unfold events in I1, I2, I3, I4, I5, I6, I7.
      rewrite Ho1 in I5. rewrite Ho2 in I3. rewrite I5, I6, I7.
      repeat split; try lia.
      * apply Forall_app. split; assumption.
      * apply insideWindows_app; assumption.
      * destruct (opt_radioTrace s); reflexivity.
Qed.

Lemma retryLoop_radio remaining : forall retry reply s,
  let run := retryLoop remaining retry d packet reply s in
  radio (final run) = deliver (reportFor (firstAck (events run))) (radio s) /\
  opt_radioTrace (final run) = opt_radioTrace s.
Proof.
  induction remaining as [|n IH]; intros retry reply s; cbn [retryLoop].
  - split; reflexivity.
  - cbv zeta. rewrite bind_events, bind_final, firstAck_app, attempt_firstAck.
    pose proof (attempt_frame d packet reply retry s) as [_ Hr].
    pose proof (attempt_options d packet reply retry s) as [Ho _].
    revert Hr Ho.
    generalize (attempt d packet reply retry s). intros [[[ack tx] s'] evs].
    unfold result, final, events. cbn [fst snd]. intros Hr Ho.
    destruct ack.
    + destruct (len tx =? 0) eqn:Hlen; cbn [negb reportFor];
        rewrite ?Hlen; cbn; rewrite Hr, Ho; split; reflexivity.
    + destruct (IH (S retry) tx s') as [I1 I2].
      unfold final, events in I1, I2. rewrite I1, I2, Hr, Ho. split; reflexivity.
Qed.

End MoreTransactionFacts.

Section DriverExtras.
Context {K : Constants} {R : RadioManager} {C : CubeSim} {F : FlashSim}.

Lemma doRadioPacket_counts s :
  let ptx := fst (produce (radio s)) in
  let evs := events (doRadioPacket s) in
  (attempts evs <= MAX_RETRIES)%nat /\
  (length (deliveries evs) <= attempts evs)%nat /\
  Forall (fun cp => (fst cp < opt_numCubes s)%nat /\
                    snd cp = {| len := ptx_len ptx; payload := ptx_bytes ptx |})
         (deliveries evs) /\
  insideWindows false evs = true /\
  length (logs evs) = (if opt_radioTrace s then attempts evs else 0%nat) /\
  length (reports evs) =
    match dest ptx with Some _ => 1%nat | None => 0%nat end /\
  produced evs = [ptx] /\
  opt_radioTrace (final (doRadioPacket s)) = opt_radioTrace s.
Proof.
  cbv zeta. rewrite doRadioPacket_unfold. cbv zeta.
  destruct (dest (fst (produce (radio s)))) as [d|].
  - match goal with |- context [retryLoop ?n ?k ?d ?p ?r ?s1] =>
      destruct (retryLoop_counts d p n k r s1) as (H1 & H2 & H3 & H4 & H5 & H6 & H7);
      destruct (retryLoop_radio d p n k r s1) as [_ H8]
    end.
    unfold events, final in *. cbn [fst snd] in *.
    change (attempts (EvProduce ?p :: ?l)) with (attempts l).
    change (deliveries (EvProduce ?p :: ?l)) with (deliveries l).
    change (logs (EvProduce ?p :: ?l)) with (logs l).
    change (reports (EvProduce ?p :: ?l)) with (reports l).
    change (produced (EvProduce ?p :: ?l)) with (p :: produced l).
    change (insideWindows false (EvProduce ?p :: ?l)) with (insideWindows false l).
    rewrite H7. repeat split; assumption.
  - cbn. repeat split; try lia; try constructor.
    destruct (opt_radioTrace s); reflexivity.
Qed.

(** X2.  A transaction makes at most [MAX_RETRIES] attempts and at most
    one delivery in each; every delivery goes to one of the
    [opt_numCubes] cubes and hands it the packet the consuming layer
    produced, unchanged from one retry to the next. *)
Theorem doRadioPacket_deliveries (s : SystemMC) :
  let ptx := fst (produce (radio s)) in
  let evs := events (doRadioPacket s) in
  (attempts evs <= MAX_RETRIES)%nat /\
  (length (deliveries evs) <= attempts evs)%nat /\
  Forall (fun cp => (fst cp < opt_numCubes s)%nat /\
                    snd cp = {| len := ptx_len ptx; payload := ptx_bytes ptx |})
         (deliveries evs).
Proof.
  cbv zeta. rewrite doRadioPacket_unfold. cbv zeta.
  destruct (dest (fst (produce (radio s)))) as [d|].
  - match goal with |- context [retryLoop ?n ?k ?d ?p ?r ?s1] =>
      destruct (retryLoop_counts d p n k r s1) as (H1 & H2 & H3 & _)
    end.
    unfold events in *. cbn [fst snd] in *.
    change (attempts (EvProduce ?p :: ?l)) with (attempts l).
    change (deliveries (EvProduce ?p :: ?l)) with (deliveries l).
    repeat split; assumption.
  - cbn. repeat split; try lia. constructor.
Qed.

(** X6.  In any sequence of transactions a cube is handed a packet only
    between a [beginEventAt] and the [endEvent] that follows it, windows
    do not nest and none is left open, and the consuming layer is called
    (to produce and to take the report) outside of the windows. *)
Theorem pump_inside_windows (n : nat) (s : SystemMC) :
  insideWindows false (events (pump n s)) = true.
Proof.
  revert s. induction n as [|n IH]; intros s; cbn [pump]; [reflexivity |].
  rewrite bind_events, Radio_halt_unfold.
  destruct (mThreadRunning s); [| reflexivity].
  apply insideWindows_app.
  - destruct (doRadioPacket_counts s) as (_ & _ & _ & H & _). exact H.
  - destruct (result (doRadioPacket s)); [apply IH | reflexivity ..].
Qed.

(** X8.  With the radio trace on there is one trace line for each
    attempt; with the trace off there is none. *)
Theorem pump_trace_lines (n : nat) (s : SystemMC) :
  length (logs (events (pump n s))) =
  if opt_radioTrace s then attempts (events (pump n s)) else 0%nat.
Proof.
  revert s. induction n as [|n IH]; intros s; cbn [pump].
  - destruct (opt_radioTrace s); reflexivity.
  - rewrite bind_events, Radio_halt_unfold.
    destruct (mThreadRunning s); [| destruct (opt_radioTrace s); reflexivity].
    destruct (doRadioPacket_counts s) as (_ & _ & _ & _ & H5 & _ & _ & H8).
    rewrite logs_app, attempts_app, length_app, H5.
    destruct (result (doRadioPacket s)).
    + rewrite IH, H8. destruct (opt_radioTrace s); reflexivity.
    + cbn. destruct (opt_radioTrace s); lia.
    + cbn. destruct (opt_radioTrace s); lia.
Qed.

(** X4.  After a transaction the consuming layer is in the state
    [produce] left it in, passed once through the callback of the single
    report; the attempts in between do not touch it. *)
Theorem doRadioPacket_consumer_state (s : SystemMC) (d : RadioAddress) :
  dest (fst (produce (radio s))) = Some d ->
  radio (final (doRadioPacket s)) =
  deliver (reportFor (firstAck (events (doRadioPacket s))))
          (snd (produce (radio s))).
Proof.
  intros Hd. rewrite doRadioPacket_unfold. cbv zeta. rewrite Hd.
  match goal with |- context [retryLoop ?n ?k ?d ?p ?r ?s1] =>
    destruct (retryLoop_radio d p n k r s1) as [H _] end.
  unfold final, events in *. cbn [fst snd] in *.
  change (firstAck (EvProduce ?p :: ?l)) with (firstAck l).
  rewrite H. reflexivity.
Qed.

(** X5.  In a sequence of transactions every packet asked of the
    consuming layer is answered by one report, but for the last one when
    the run ends in the failed assertion: if all [n] transactions
    return, [n] packets were produced and [n] reports delivered; if the
    sequence ends in the assertion, the null-destination packet is the
    one without a report; if it ends because the thread is being
    stopped, nothing is left unanswered. *)
Theorem pump_one_report_per_transaction (n : nat) (s : SystemMC) :
  let run := pump n s in
  (length (produced (events run)) <= n)%nat /\
  match result run with
  | Returned =>
      length (produced (events run)) = n /\
      length (reports (events run)) = n
  | AssertionFailed =>
      length (produced (events run)) = S (length (reports (events run)))
  | ThreadExit =>
      length (produced (events run)) = length (reports (events run))
  end.
Proof.
  cbv zeta. revert s. induction n as [|n IH]; intros s; cbn [pump].
  - repeat split. cbn. lia.
  - rewrite bind_result, bind_events, Radio_halt_unfold.
    destruct (mThreadRunning s); [| cbn; split; [lia | reflexivity]].
    rewrite doRadioPacket_result, produced_app, reports_app, !length_app.
    destruct (doRadioPacket_counts s) as (_ & _ & _ & _ & _ & H6 & H7 & _).
    rewrite H6, H7.
    destruct (dest (fst (produce (radio s)))) as [d|].
    + destruct (IH (final (doRadioPacket s))) as [I1 I2]. cbn [length].
      split; [lia |].
      destruct (result (pump n (final (doRadioPacket s)))); lia.
    + cbn. split; [lia | reflexivity].
Qed.

End DriverExtras.

Section TraceBlindness.
Context {K : Constants} {R : RadioManager} {C : CubeSim} {F : FlashSim}.

Lemma TraceBlind_ret {A} (a : A) : TraceBlind (ret a).
Proof. intros b s. repeat split. Qed.

Lemma TraceBlind_bind {A B} (m : Sim A) (k : A -> Sim B) :
  TraceBlind m -> (forall a, TraceBlind (k a)) -> TraceBlind (bind m k).
Proof.
  intros Hm Hk b s. destruct (Hm b s) as (M1 & M2 & M3).
  rewrite !bind_result, !bind_final, !bind_events, !protocol_app, M1, M2, M3.
  destruct (Hk (result (m s)) b (final (m s))) as (K1 & K2 & K3).
  rewrite K1, K2, K3. repeat split.
Qed.

Lemma TraceBlind_attempt d packet reply retry :
  TraceBlind (attempt d packet reply retry).
Proof.
  intros b s. unfold attempt, Cube_handlePacket. sim_unfold. cbn.
  destruct (scanCubes _ _ _) as [i|]; cbn;
    [ destruct (nth_error _ _) as [hw|]; cbn;
      [ destruct (handlePacket _ _ _) as [[ack tx] hw']; cbn | ] | ];
    destruct b, (opt_radioTrace s); cbn; repeat split.
Qed.

Lemma TraceBlind_retryLoop d packet remaining : forall retry reply,
  TraceBlind (retryLoop remaining retry d packet reply).
Proof.
  induction remaining as [|n IH]; intros retry reply; cbn [retryLoop].
  - intros b s. repeat split.
  - apply TraceBlind_bind; [apply TraceBlind_attempt |].
    intros [ack tx]. cbn [fst snd]. destruct ack; [| apply IH].
    destruct (negb (len tx =? 0)); intros b s; repeat split.
Qed.

Lemma TraceBlind_doRadioPacket : TraceBlind doRadioPacket.
Proof.
  unfold doRadioPacket. apply TraceBlind_bind.
  - intros b s. unfold RadioManager_produce, result, final, events. cbn.
    destruct (produce (radio s)) as [ptx r]. repeat split.
  - intros ptx. destruct (dest ptx) as [d|]; [| apply TraceBlind_ret].
    apply TraceBlind_bind; [apply TraceBlind_retryLoop |].
    intros _. apply TraceBlind_ret.
Qed.

Lemma TraceBlind_Radio_halt : TraceBlind Radio_halt.
Proof.
  unfold Radio_halt. apply TraceBlind_bind.
  - intros b s. repeat split.
  - intros [|]; [apply TraceBlind_doRadioPacket | apply TraceBlind_ret].
Qed.

(** X7.  The radio trace only observes: with the option switched either
    way, a sequence of transactions ends the same way, leaves the same
    state (the option apart) and makes the same calls, trace lines
    apart. *)
Theorem pump_trace_only_observes (n : nat) (b : bool) (s : SystemMC) :
  result (pump n (set_radioTrace b s)) = result (pump n s) /\
  final (pump n (set_radioTrace b s)) = set_radioTrace b (final (pump n s)) /\
  protocol (events (pump n (set_radioTrace b s))) = protocol (events (pump n s)).
Proof.
  revert b s. change (TraceBlind (pump n)).
  induction n as [|n IH]; cbn [pump]; [apply TraceBlind_ret |].
  apply TraceBlind_bind; [apply TraceBlind_Radio_halt |].
  intros [| |]; [exact IH | apply TraceBlind_ret ..].
Qed.

End TraceBlindness.

Section FirstAttempt.
Context {K : Constants} {R : RadioManager} {C : CubeSim} {F : FlashSim}.

Lemma attempt_answered d packet reply retry s i hw :
  result (getCubeForAddress d (final (beginPacket s))) = Some i ->
  nth_error (cubes (final (beginPacket s))) i = Some hw ->
  result (attempt d packet reply retry s) =
    (fst (fst (handlePacket packet reply hw)), snd (fst (handlePacket packet reply hw))) /\
  deliveries (events (attempt d packet reply retry s)) = [(i, packet)].
Proof.
  unfold attempt, Cube_handlePacket. sim_unfold. cbn. intros Hs Hn.
  rewrite Hs. cbn. rewrite Hn.
  destruct (handlePacket packet reply hw) as [[ack tx] hw']. cbn.
  destruct (opt_radioTrace s); cbn; split; reflexivity.
Qed.

Lemma retryLoop_answered d packet m retry reply s i hw :
  result (getCubeForAddress d (final (beginPacket s))) = Some i ->
  nth_error (cubes (final (beginPacket s))) i = Some hw ->
  fst (fst (handlePacket packet reply hw)) = true ->
  let run := retryLoop (S m) retry d packet reply s in
  attempts (events run) = 1%nat /\
  deliveries (events run) = [(i, packet)] /\
  reports (events run) = [reportFor (Some (snd (fst (handlePacket packet reply hw))))] /\
  ticks (final run) = u64 (ticks s + TICKS_PER_PACKET).
Proof.
  intros Hs Hn Hack. cbv zeta. cbn [retryLoop].
  rewrite bind_events, bind_final, attempts_app, deliveries_app, reports_app.
  destruct (attempt_answered d packet reply retry s i hw Hs Hn) as [Hr Hdel].
  rewrite attempt_attempts, attempt_reports, Hdel, Hr. cbn [fst snd].
  rewrite Hack.
  pose proof (attempt_ticks d packet reply retry s) as Ht.
  set (s' := final (attempt d packet reply retry s)) in *. clearbody s'.
  destruct (len (snd (fst (handlePacket packet reply hw))) =? 0) eqn:Hlen;
    cbn [negb reportFor]; rewrite ?Hlen; cbn; rewrite Ht; repeat split.
Qed.

(** X3.  When the destination resolves and the cube acknowledges the
    first delivery, the transaction makes that one attempt only, whatever
    [MAX_RETRIES] (not zero) is: one delivery, the report of the cube's
    reply, and a clock one quantum later. *)
Theorem doRadioPacket_acknowledged_at_once
    (s : SystemMC) (d : RadioAddress) (i : nat) (hw : Hardware) :
  let ptx := fst (produce (radio s)) in
  let packet := {| len := ptx_len ptx; payload := ptx_bytes ptx |} in
  let answer := handlePacket packet {| len := 0; payload := repeat 0 PAYLOAD_MAX |} hw in
  dest ptx = Some d ->
  (0 < MAX_RETRIES)%nat ->
  result (getCubeForAddress d (final (beginPacket s))) = Some i ->
  nth_error (cubes (final (beginPacket s))) i = Some hw ->
  fst (fst answer) = true ->
  let run := doRadioPacket s in
  attempts (events run) = 1%nat /\
  deliveries (events run) = [(i, packet)] /\
  reports (events run) = [reportFor (Some (snd (fst answer)))] /\
  ticks (final run) = u64 (ticks s + TICKS_PER_PACKET).
Proof.
  cbv zeta. intros Hd Hmax Hs Hn Hack.
  rewrite doRadioPacket_unfold. cbv zeta. rewrite Hd.
  destruct MAX_RETRIES as [|m]; [lia |].
  match goal with |- context [retryLoop ?n ?k ?d ?p ?r ?s1] =>
    destruct (retryLoop_answered d p m k r s1 i hw Hs Hn Hack)
      as (H1 & H2 & H3 & H4) end.
  unfold events, final in *. cbn [fst snd] in *.
  change (attempts (EvProduce ?p :: ?l)) with (attempts l).
  change (deliveries (EvProduce ?p :: ?l)) with (deliveries l).
  change (reports (EvProduce ?p :: ?l)) with (reports l).
  repeat split; assumption.
Qed.

End FirstAttempt.

Section RetryNumbers.
Context {K : Constants} {R : RadioManager} {C : CubeSim} {F : FlashSim}.

Lemma timeoutRetries_app l1 l2 :
  timeoutRetries (l1 ++ l2) = timeoutRetries l1 ++ timeoutRetries l2.
Proof.
  induction l1 as [|l l1 IH]; [reflexivity|].
  cbn. destruct (log_result l); rewrite IH; reflexivity.
Qed.

Lemma attempt_retry_line d packet reply retry s :
  opt_radioTrace s = true ->
  timeoutRetries (logs (events (attempt d packet reply retry s))) =
  if fst (result (attempt d packet reply retry s)) then [] else [retry].
Proof.
  intros Ht. unfold attempt, Cube_handlePacket. sim_unfold. cbn.
  destruct (scanCubes _ _ _) as [i|]; cbn;
    [ destruct (nth_error _ _) as [hw|]; cbn;
      [ destruct (handlePacket _ _ _) as [[[|] tx] hw']; cbn | ] | ];
    rewrite Ht; reflexivity.
Qed.

Lemma retryLoop_retry_lines d packet remaining : forall retry reply s,
  opt_radioTrace s = true ->
  let evs := events (retryLoop remaining retry d packet reply s) in
  timeoutRetries (logs evs) = seq retry (unacknowledged evs) /\
  (firstAck evs <> None -> (0 < attempts evs)%nat).
Proof.
  induction remaining as [|n IH]; intros retry reply s Ht; cbn [retryLoop].
  - split; [reflexivity | intros H; exfalso; apply H; reflexivity].
  - cbv zeta. unfold unacknowledged.
    rewrite bind_events, logs_app, timeoutRetries_app, firstAck_app, attempts_app.
    rewrite attempt_retry_line, attempt_firstAck, attempt_attempts by exact Ht.
    pose proof (attempt_options d packet reply retry s) as [Ho _].
    revert Ho.
    generalize (attempt d packet reply retry s). intros [[[ack tx] s'] evs].
    unfold result, final, events. cbn [fst snd]. intros Ho.
    destruct ack.
    + split; [| intros _; lia].
      destruct (negb (len tx =? 0)); reflexivity.
    + destruct (IH (S retry) tx s') as [I1 I2]; [rewrite Ho; exact Ht |].
      unfold events, unacknowledged in I1, I2. rewrite I1.
      split; [| intros _; lia].
      destruct (firstAck _) as [tx'|].
      * specialize (I2 ltac:(discriminate)).
        replace (1 + attempts (snd (retryLoop n (S retry) d packet tx s')) - 1)%nat
          with (S (attempts (snd (retryLoop n (S retry) d packet tx s')) - 1)) by lia.
        reflexivity.
      * reflexivity.
Qed.

(** X9.  With the radio trace on, the trace lines of the attempts that
    were not acknowledged carry the retry numbers 0, 1, 2, ... in order,
    one for each such attempt. *)
Theorem doRadioPacket_retry_numbers (s : SystemMC) :
  opt_radioTrace s = true ->
  timeoutRetries (logs (events (doRadioPacket s))) =
  seq 0 (unacknowledged (events (doRadioPacket s))).
Proof.
  intros Ht. rewrite doRadioPacket_unfold. cbv zeta.
  destruct (dest _) as [d|]; [| reflexivity].
  match goal with |- context [retryLoop ?n ?k ?d ?p ?r ?s1] =>
    destruct (retryLoop_retry_lines d p n k r s1 Ht) as [H _] end.
  unfold events, unacknowledged in *. cbn [fst snd] in *.
  change (logs (EvProduce ?p :: ?l)) with (logs l).
  change (firstAck (EvProduce ?p :: ?l)) with (firstAck l).
  change (attempts (EvProduce ?p :: ?l)) with (attempts l).
  exact H.
Qed.

End RetryNumbers.

(** ** Time *)

Section TimeExtras.
Context {K : Constants} {R : RadioManager} {C : CubeSim} {F : FlashSim}.

(** X12.  Simulated time does not run backwards: as long as the product
    with the conversion constant fits 64 bits, a later tick count
    converts to a later or equal time. *)
Theorem SysTime_ticks_monotone (s1 s2 : SystemMC) :
  let k := hzTicks (TICK_HZ / 16) in
  0 <= k ->
  0 <= ticks s1 <= ticks s2 ->
  ticks s2 * k < 2 ^ 64 ->
  SysTime_ticks s1 <= SysTime_ticks s2.
Proof.
  cbv zeta. intros Hk Ht Hno. unfold SysTime_ticks.
  rewrite !Z.shiftr_div_pow2 by lia.
  rewrite !u64_small by nia.
  apply Z.div_le_mono; [lia | nia].
Qed.

(** X13.  When a quantum is a whole number of time units
    ([TICKS_PER_PACKET * hzTicks(TICK_HZ / 16)] a multiple of 16), each
    [beginPacket] moves the time reported by [SysTime::ticks] by exactly
    that amount, with no rounding drift, as long as nothing overflows. *)
Theorem beginPacket_elapsed_time (s : SystemMC) :
  let k := hzTicks (TICK_HZ / 16) in
  0 <= k ->
  0 <= ticks s ->
  0 <= TICKS_PER_PACKET ->
  ticks s + TICKS_PER_PACKET < 2 ^ 64 ->
  (ticks s + TICKS_PER_PACKET) * k < 2 ^ 64 ->
  (TICKS_PER_PACKET * k) mod 16 = 0 ->
  SysTime_ticks (final (beginPacket s)) =
  SysTime_ticks s + TICKS_PER_PACKET * k / 16.
Proof.
  cbv zeta. intros Hk Ht Hq Hfit Hno Hdiv. unfold SysTime_ticks.
  change (ticks (final (beginPacket s))) with (u64 (ticks s + TICKS_PER_PACKET)).
  rewrite !Z.shiftr_div_pow2 by lia. change (2 ^ 4) with 16.
  rewrite (u64_small (ticks s + TICKS_PER_PACKET)) by lia.
  rewrite !u64_small by nia.
  apply Z.mod_divide in Hdiv; [| lia]. destruct Hdiv as [c Hc].
  rewrite Z.mul_add_distr_r, Hc, Z.div_add, Z.div_mul by lia. reflexivity.
Qed.

(** X11.  A thread that starts sets its clock from the cubes' clock: the
    [k]-th attempt it makes opens at [time.clocks + STARTUP_DELAY] plus
    [k] quanta (in 64-bit arithmetic) whatever [ticks] held before, and
    the clock ends one quantum per attempt after the start value. *)
Theorem threadFn_clock (n : nat) (s : SystemMC) :
  let run := threadFn n s in
  let a := attempts (events run) in
  ticks (final run) =
    u64 (time_clocks s + STARTUP_DELAY + Z.of_nat a * TICKS_PER_PACKET) /\
  opens (events run) =
    map (fun k => u64 (time_clocks s + STARTUP_DELAY + Z.of_nat k * TICKS_PER_PACKET))
        (seq 1 a).
Proof.
  cbv zeta. unfold threadFn. rewrite bind_events, bind_final.
  change (events (modify ?f s)) with (@nil Event). cbn [app].
  change (final (modify ?f s)) with (f s). cbv beta.
  set (s0 := set_ticks (u64 (time_clocks s + STARTUP_DELAY)) s).
  destruct (pump_clock n s0) as (Ho & _ & _ & Hf).
  assert (Hr : 0 <= ticks s0 < 2 ^ 64).
  { unfold s0, u64. cbn [ticks set_ticks]. apply Z.mod_pos_bound. lia. }
  rewrite Hf, Ho, advance_closed, windows_closed by exact Hr.
  rewrite map_map. cbn [fst]. unfold s0. cbn [ticks set_ticks].
  rewrite u64_add_l. split; [reflexivity |].
  apply map_ext. intros k. rewrite u64_add_l. reflexivity.
Qed.


End TimeExtras.

(** ** The installer *)

Section ChunkFacts.

Lemma chunk_count (n : nat) :
  (0 < n)%nat -> ((n + 511) / 512 = S ((n - 512 + 511) / 512))%nat.
Proof.
  intros Hn. destruct (Nat.le_gt_cases 512 n) as [Hge | Hlt].
  - replace (n + 511)%nat with ((n - 512 + 511) + 1 * 512)%nat by lia.
    rewrite Nat.div_add by lia. lia.
  - replace (n - 512 + 511)%nat with 511%nat by lia.
    replace (n + 511)%nat with ((n - 1) + 1 * 512)%nat by lia.
    rewrite Nat.div_add by lia.
    rewrite (Nat.div_small (n - 1)) by lia.
    rewrite (Nat.div_small 511) by lia. reflexivity.
Qed.

Lemma u32_add_l x y : u32 (u32 x + y) = u32 (x + y).
Proof. unfold u32. apply Zplus_mod_idemp_l. Qed.

Lemma chunks_nil addr : chunks addr [] = [].
Proof. reflexivity. Qed.

(* The first piece and the pieces of the rest. *)
Lemma chunks_step addr (data : list Byte.byte) :
  data <> [] ->
  0 <= addr < 2 ^ 32 ->
  chunks addr data =
  (addr, firstn 512 data) ::
  chunks (u32 (addr + Z.of_nat (length (firstn 512 data)))) (skipn 512 data).
Proof.
  intros Hne Haddr. unfold chunks.
  assert (Hlen : (0 < length data)%nat).
  { destruct data; [congruence | cbn; lia]. }
  rewrite (chunk_count _ Hlen). cbn [seq map].
  rewrite length_skipn. f_equal.
  - cbn [skipn Nat.mul]. f_equal. unfold u32.
    rewrite Z.mul_0_r, Z.add_0_r. apply Z.mod_small. exact Haddr.
  - rewrite <- seq_shift, map_map.
    destruct (Nat.le_gt_cases (length data) 512) as [Hle | Hgt].
    + replace (length data - 512)%nat with 0%nat by lia. reflexivity.
    + apply map_ext. intros k.
      rewrite length_firstn, Nat.min_l by lia.
      rewrite u32_add_l, skipn_skipn. f_equal.
      * f_equal. lia.
      * f_equal. f_equal. lia.
Qed.

End ChunkFacts.

Section InstallExtras.
Context {K : Constants} {R : RadioManager} {C : CubeSim} {F : FlashSim}.

(* A read of a regular file that is read without errors. *)
Lemma fread_regular (n : nat) (f : FILE) :
  later f = [] -> atEnd f = EndOfFile ->
  fread n f =
  (firstn n (unread f),
   {| unread := skipn n (unread f); later := []; atEnd := EndOfFile;
      eof := eof f || (length (firstn n (unread f)) <? n)%nat |}).
Proof.
  unfold fread. destruct f as [u l e b]. cbn [unread later atEnd eof].
  intros -> ->.
  destruct (Nat.ltb_spec (length (firstn n u)) n) as [Hs | Hs].
  - rewrite length_firstn in Hs. rewrite skipn_all2 by lia.
    rewrite orb_true_r. reflexivity.
  - rewrite orb_false_r. reflexivity.
Qed.

Lemma writeLoop_chunks addr f : forall s,
  0 <= addr < 2 ^ 32 ->
  later f = [] -> atEnd f = EndOfFile ->
  writes (events (writeLoop addr f s)) =
  chunks addr (if eof f then [] else unread f).
Proof.
  funelim (writeLoop addr f); intros s Haddr Hl Ha.
  - unfold feof in e. rewrite e. reflexivity.
  - exfalso. destruct (exhausted_spec f e) as [_ Hr].
    unfold reachesEnd in Hr. rewrite Ha, orb_true_r in Hr. discriminate Hr.
  - cbv zeta. unfold feof in Hf. rewrite Hf.
    rewrite (fread_regular 512 f Hl Ha) in *. cbn [fst snd] in *.
    destruct (Z.ltb_spec 0 (Z.of_nat (length (firstn 512 (unread f)))))
      as [Hpos | Hzero].
    + rewrite bind_events, writes_app.
      change (events (FlashDevice_write ?a ?b s)) with [EvWrite a b].
      cbn [writes app].
      match goal with
      | IH : unit -> _ |- _ => rewrite (IH tt s)
      end.
      2: { unfold u32. apply Z.mod_pos_bound. lia. }
      2, 3: reflexivity.
      assert (Hne : unread f <> []).
      { intros Hnil. rewrite Hnil in Hpos. cbn in Hpos. lia. }
      rewrite (chunks_step addr (unread f) Hne Haddr).
      cbn [eof unread]. rewrite Hf. cbn [orb].
      f_equal. f_equal.
      destruct (Nat.ltb_spec (length (firstn 512 (unread f))) 512) as [Hs | Hs];
        [| reflexivity].
      rewrite length_firstn in Hs.
      rewrite skipn_all2 by lia. reflexivity.
    + assert (Hnil : unread f = []).
      { destruct (unread f); [reflexivity | cbn in Hzero; lia]. }
      match goal with
      | IH : SystemMC -> _ |- _ => rewrite (IH s s Haddr)
      end.
      2, 3: reflexivity.
      cbn [eof unread]. rewrite Hnil, Hf. reflexivity.
Qed.

End InstallExtras.

Section InstallExtras2.
Context {K : Constants} {R : RadioManager} {C : CubeSim} {F : FlashSim}.

(* The writes of an installation are those of its copy loop. *)
Lemma installELF_copy fs path src s :
  fs path = Some src ->
  exists s1,
    writes (events (installELF fs path s)) =
    writes (events (writeLoop 0 {| unread := content src; later := resumed src;
                                   atEnd := ending src; eof := false |} s1)).
Proof.
  intros Hsrc. unfold installELF, fopen. rewrite Hsrc.
  unfold stop, start, FlashDevice_chipErase, FlashBlock_invalidate.
  destruct (mThreadRunning s) eqn:Hrun; sim_unfold; cbn; rewrite Hrun; cbn.
  all: match goal with |- context [writeLoop 0 ?f ?s1] =>
         exists s1; destruct (writeLoop 0 f s1) as [[[[]|] s2] t2] end.
  all: cbn; rewrite ?Hrun; cbn; rewrite ?writes_app; cbn;
    rewrite ?app_nil_r; reflexivity.
Qed.

Lemma installELF_chunks fs path image s :
  fs path = Some (regularFile image) ->
  writes (events (installELF fs path s)) = chunks 0 image.
Proof.
  intros Hopen. destruct (installELF_copy fs path _ s Hopen) as [s1 Hw].
  rewrite Hw.
  apply (writeLoop_chunks 0
           {| unread := image; later := []; atEnd := EndOfFile; eof := false |} s1);
    [lia | reflexivity | reflexivity].
Qed.

(* The state an installation leaves on a machine whose thread is stopped. *)
Lemma installELF_final fs path s :
  mThreadRunning s = false ->
  final (installELF fs path s) =
  match result (installELF fs path s) with
  | Returns _ =>
      set_cache (invalidate (cache s))
        (set_flash (flash (final (installELF fs path s))) s)
  | NeverReturns => set_flash (flash (final (installELF fs path s))) s
  end.
Proof.
  intros Hrun. unfold installELF, fopen.
  destruct (fs path) as [src|].
  - set (f := {| unread := content src; later := resumed src;
                 atEnd := ending src; eof := false |}).
    unfold FlashDevice_chipErase, FlashBlock_invalidate.
    sim_unfold. cbn. rewrite Hrun. cbn.
    match goal with |- context [writeLoop 0 f ?s1] =>
      destruct (writeLoop_spec 0 f s1) as (ws & _ & _ & _ & Hfin & _);
      revert Hfin; unfold final;
      destruct (writeLoop 0 f s1) as [[[[]|] s2] t2] end.
    + cbn. intros ->. rewrite ?Hrun. cbn. reflexivity.
    + cbn. intros ->. reflexivity.
  - unfold FlashBlock_invalidate. sim_unfold. cbn. rewrite Hrun. cbn.
    rewrite ?Hrun. cbn. destruct s; reflexivity.
Qed.

(** X17.  On a machine whose master thread is stopped, [installELF]
    makes no call on the thread and changes nothing but the flash and,
    when it returns, the cache: the clock, the cubes, the consuming
    layer, the options, the thread flag and the thread handle are as they
    were. *)
Theorem installELF_leaves_the_rest (fs : string -> option Source)
    (path : string) (s : SystemMC) :
  mThreadRunning s = false ->
  let run := installELF fs path s in
  filter isThreadCall (events run) = [] /\
  final run =
    match result run with
    | Returns _ =>
        set_cache (invalidate (cache s)) (set_flash (flash (final run)) s)
    | NeverReturns => set_flash (flash (final run)) s
    end.
Proof.
  intros Hrun. cbv zeta. split.
  - destruct (installELF_run fs path s) as (ws & _ & He & _).
    rewrite He, installTrace_threadCalls, Hrun. reflexivity.
  - apply installELF_final. exact Hrun.
Qed.

(** X15.  When the file cannot be opened, [installELF] returns [false]
    and touches the flash not at all (no erase, no write): it logs the
    error, invalidates the cache all the same, and stops and restarts the
    thread if it was running. *)
Theorem installELF_open_failure (fs : string -> option Source)
    (path : string) (s : SystemMC) :
  fs path = None ->
  let run := installELF fs path s in
  result run = Returns false /\
  events run =
    (if mThreadRunning s then [EvWake; EvJoin] else []) ++
    [EvInstallLog path; EvFopen path false; EvOpenError path; EvInvalidate] ++
    (if mThreadRunning s then [EvSpawn] else []) /\
  flash (final run) = flash s /\
  cache (final run) = invalidate (cache s).
Proof.
  intros Hopen. cbv zeta.
  destruct (installELF_run fs path s) as (ws & _ & He & Hres & _ & Hc & Hfl).
  unfold installTrace, comesBack, opened, readsToEnd in *. rewrite Hopen in *.
  split; [exact Hres |]. split; [exact He |]. split; assumption.
Qed.

(** X16.  When the file opens and is read without errors, the flash is
    accessed by one erase of the chip followed by the writes of the image
    cut into pieces of 512 bytes, in order: piece [k] holds the bytes
    from [512 * k] on and goes to address [512 * k] (modulo [2 ^ 32]);
    there are as many writes as pieces, none for an empty image, and the
    last piece may be shorter. *)
Theorem installELF_erases_then_writes_chunks
    (fs : string -> option Source) (path : string)
    (image : list Byte.byte) (s : SystemMC) :
  fs path = Some (regularFile image) ->
  let run := installELF fs path s in
  filter isFlashAccess (events run) = EvChipErase :: writeEvents (chunks 0 image) /\
  length (chunks 0 image) = ((length image + 511) / 512)%nat /\
  flash (final run) = applyWrites (chunks 0 image) (chipErase (flash s)).
Proof.
  intros Hopen. cbv zeta.
  pose proof (installELF_chunks fs path image s Hopen) as Hch.
  destruct (installELF_run fs path s) as (ws & _ & He & _ & _ & _ & Hfl).
  unfold opened in Hfl. rewrite Hopen in He, Hfl.
  assert (Hws : ws = chunks 0 image).
  { rewrite <- Hch, He, installTrace_writes. reflexivity. }
  subst ws. split; [| split].
  - rewrite He, installTrace_flashAccesses. reflexivity.
  - unfold chunks. rewrite length_map, length_seq. reflexivity.
  - exact Hfl.
Qed.

End InstallExtras2.

(** ** The video memory check *)

Section FlatMapFacts.

Lemma flat_map_nil_iff {A B} (f : A -> list B) (l : list A) :
  flat_map f l = [] <-> forall x, In x l -> f x = [].
Proof.
  induction l as [|a l IH]; cbn.
  - split; [intros _ x [] | reflexivity].
  - split.
    + intros H. apply app_eq_nil in H. destruct H as [Ha Hl].
      intros x [<- | Hx]; [exact Ha | apply IH; assumption].
    + intros H. rewrite (H a (or_introl eq_refl)).
      apply IH. intros x Hx. apply H. right. exact Hx.
Qed.

Lemma flat_map_length_le {A B} (f : A -> list B) (l : list A) :
  (forall x, (length (f x) <= 1)%nat) ->
  (length (flat_map f l) <= length l)%nat.
Proof.
  intros Hf. induction l as [|a l IH]; cbn; [lia |].
  rewrite length_app. specialize (Hf a). lia.
Qed.

End FlatMapFacts.

Section VideoCheck.
Context {K : Constants} {R : RadioManager} {C : CubeSim} {F : FlashSim}
        {M : CubeMemory}.

Lemma changeMessages_nil sl vb :
  changeMessages sl vb = [] <-> Forall (fun w => w = 0) (cm1 vb).
Proof.
  unfold changeMessages. rewrite flat_map_nil_iff. split.
  - intros H. apply Forall_forall. intros w Hw.
    destruct (In_nth _ _ 0 Hw) as (i & Hi & <-).
    specialize (H i ltac:(apply in_seq; lia)).
    destruct (Z.eqb_spec (nth i (cm1 vb) 0) 0); [assumption | discriminate H].
  - intros H i Hi. apply in_seq in Hi.
    rewrite Forall_forall in H.
    rewrite (H (nth i (cm1 vb) 0)) by (apply nth_In; lia). reflexivity.
Qed.

Lemma mismatchMessages_nil sl hwMem bufMem :
  mismatchMessages sl hwMem bufMem = [] <->
  forall j, (j < SYS_VRAM_BYTES)%nat -> nth j hwMem 0 = nth j bufMem 0.
Proof.
  unfold mismatchMessages. rewrite flat_map_nil_iff. split.
  - intros H j Hj. specialize (H j ltac:(apply in_seq; lia)).
    destruct (Z.eqb_spec (nth j hwMem 0) (nth j bufMem 0));
      [assumption | discriminate H].
  - intros H j Hj. apply in_seq in Hj. rewrite (H j) by lia.
    rewrite Z.eqb_refl. reflexivity.
Qed.

(** X18.  For a slot that has a video buffer and whose address resolves
    to a cube, [checkQuiescentVRAM] returns (rather than fail an
    assertion) exactly when [cm16] is zero, every word of [cm1] is zero
    and the first [_SYS_VRAM_BYTES] bytes of the cube's memory equal
    those of the buffer. *)
Theorem checkQuiescentVRAM_verdict
    (sl : CubeSlot) (vb : SYSVideoBuffer) (i : nat) (hw : Hardware)
    (s : SystemMC) :
  getVBuf sl = Some vb ->
  result (getCubeForSlot sl s) = Some i ->
  nth_error (cubes s) i = Some hw ->
  Z.of_nat (length (cm1 vb) + SYS_VRAM_BYTES) < 2 ^ 32 ->
  (fst (checkQuiescentVRAM (Some sl) s) = Returned <->
   cm16 vb = 0 /\
   Forall (fun w => w = 0) (cm1 vb) /\
   forall j, (j < SYS_VRAM_BYTES)%nat ->
             nth j (mExtData hw) 0 = nth j (vram vb) 0).
Proof.
  intros Hv Hr Hn Hsize. unfold checkQuiescentVRAM. rewrite Hv, Hr, Hn.
  destruct (Z.eqb_spec (cm16 vb) 0) as [H16 | H16]; cbn [negb].
  2: { split; [discriminate | intros [H _]; contradiction]. }
  cbv zeta.
  set (msgs := changeMessages sl vb ++ mismatchMessages sl (mExtData hw) (vram vb)).
  assert (Hlen : (length msgs <= length (cm1 vb) + SYS_VRAM_BYTES)%nat).
  { unfold msgs, changeMessages, mismatchMessages. rewrite length_app.
    pose proof (flat_map_length_le
      (fun i0 => if negb (nth i0 (cm1 vb) 0 =? 0)
                 then [VramChange (slot_id sl) i0 (nth i0 (cm1 vb) 0)] else [])
      (seq 0 (length (cm1 vb)))) as H1.
    pose proof (flat_map_length_le
      (fun i0 => if negb (nth i0 (mExtData hw) 0 =? nth i0 (vram vb) 0)
                 then [VramMismatch (slot_id sl) i0 (nth i0 (mExtData hw) 0)
                                    (nth i0 (vram vb) 0)] else [])
      (seq 0 SYS_VRAM_BYTES)) as H2.
    rewrite length_seq in H1, H2.
    assert (forall b (x : VramMessage), (length (if b : bool then [x] else []) <= 1)%nat)
      as Hb by (intros [|] x; cbn; lia).
    specialize (H1 ltac:(intros; apply Hb)).
    specialize (H2 ltac:(intros; apply Hb)). lia. }
  unfold u32. rewrite Z.mod_small by lia.
  destruct (Z.eqb_spec (Z.of_nat (length msgs)) 0) as [Hz | Hnz]; cbn [negb fst].
  - split; [intros _ | reflexivity].
    assert (Hnil : msgs = []) by (destruct msgs; [reflexivity | cbn in Hz; lia]).
    apply app_eq_nil in Hnil. destruct Hnil as [H1 H2].
    split; [exact H16 |]. split.
    + apply (changeMessages_nil sl vb). exact H1.
    + apply (mismatchMessages_nil sl). exact H2.
  - split; [discriminate |]. intros (_ & H1 & H2). exfalso. apply Hnz.
    apply (changeMessages_nil sl vb) in H1.
    apply (mismatchMessages_nil sl) in H2.
    unfold msgs. rewrite H1, H2. reflexivity.
Qed.

End VideoCheck.

(** * The further properties on the sample platform *)

Section MoreScenarios.

Import Sample.

(** Scenario A: acknowledged at once, one attempt for three allowed. *)
Lemma doRadioPacket_acknowledged_at_once_witness :
  attempts (events (doRadioPacket scenarioA)) = 1%nat /\
  ticks (final (doRadioPacket scenarioA)) = 4000000 + 7200.
Proof.
  destruct (doRadioPacket_acknowledged_at_once (C := cubeSim) scenarioA
              (address 0 [205; 171; 0; 0; 0]) 0
              {| rxAddr := 43981; answers := true; reply := [66] |})
    as (Ha & _ & _ & Ht).
  - reflexivity.
  - cbn; lia.
  - reflexivity.
  - reflexivity.
  - reflexivity.
  - split; [exact Ha | rewrite Ht; vm_compute; reflexivity].
Defined.

(** Scenario A: the driver has counted one acknowledgement. *)
Lemma doRadioPacket_consumer_state_witness :
  acks (radio (final (doRadioPacket scenarioA))) = 1%nat /\
  timeouts (radio (final (doRadioPacket scenarioA))) = 0%nat.
Proof.
  rewrite (doRadioPacket_consumer_state scenarioA (address 0 [205; 171; 0; 0; 0]))
    by reflexivity.
  split; vm_compute; reflexivity.
Defined.

(** Scenario B with the trace on: the retries are numbered 0, 1, 2. *)
Lemma doRadioPacket_retry_numbers_witness :
  timeoutRetries (logs (events (doRadioPacket scenarioTraced))) = [0; 1; 2]%nat.
Proof.
  rewrite (doRadioPacket_retry_numbers scenarioTraced) by reflexivity.
  vm_compute. reflexivity.
Defined.

(** A quarter of a second in, and three attempts later. *)
Lemma SysTime_ticks_monotone_witness :
  SysTime_ticks scenarioB <= SysTime_ticks (final (doRadioPacket scenarioB)).
Proof.
  apply SysTime_ticks_monotone.
  - vm_compute. discriminate.
  - vm_compute. split; discriminate.
  - vm_compute. reflexivity.
Defined.

(** A quantum of 7200 ticks is 450 microseconds. *)
Lemma beginPacket_elapsed_time_witness :
  SysTime_ticks (final (beginPacket scenarioA)) = SysTime_ticks scenarioA + 450000.
Proof.
  rewrite (beginPacket_elapsed_time scenarioA).
  - vm_compute. reflexivity.
  - vm_compute. discriminate.
  - vm_compute. discriminate.
  - vm_compute. discriminate.
  - vm_compute. reflexivity.
  - vm_compute. reflexivity.
  - vm_compute. reflexivity.
Defined.

(** A path that does not open. *)
Lemma installELF_open_failure_witness :
  result (installELF disk "none.elf" scenarioB) = Returns false /\
  flash (final (installELF disk "none.elf" scenarioB)) = flash scenarioB.
Proof.
  destruct (installELF_open_failure disk "none.elf" scenarioB) as (Hr & _ & Hf & _).
  - reflexivity.
  - split; [exact Hr | exact Hf].
Defined.

(** An image of 600 bytes: two pieces, at 0 and at 512. *)
Lemma installELF_erases_then_writes_chunks_witness :
  map (fun e => match e with
                | EvWrite a data => Some (a, length data)
                | _ => None
                end)
      (filter isFlashAccess (events (installELF disk "game.elf" scenarioB))) =
  [None; Some (0, 512%nat); Some (512, 88%nat)].
Proof.
  destruct (installELF_erases_then_writes_chunks disk "game.elf"
              (repeat Byte.x2a 600) scenarioB) as (H & _ & _).
  - reflexivity.
  - rewrite H. vm_compute. reflexivity.
Defined.

(** Scenario B with the thread stopped: after the installation of the
    two-piece image the clock and the flag are as before and the cache
    has been invalidated once. *)
Lemma installELF_leaves_the_rest_witness :
  filter isThreadCall (events (installELF disk "game.elf" scenarioStopped)) = [] /\
  ticks (final (installELF disk "game.elf" scenarioStopped)) = 4000000 /\
  mThreadRunning (final (installELF disk "game.elf" scenarioStopped)) = false /\
  cache (final (installELF disk "game.elf" scenarioStopped)) = 1%nat.
Proof.
  destruct (installELF_leaves_the_rest disk "game.elf" scenarioStopped)
    as [Ht Hf]; [reflexivity |].
  split; [exact Ht |]. rewrite Hf.
  repeat split; vm_compute; reflexivity.
Defined.

(** Scenario A's slot mirrors its cube: the check passes. *)
Lemma checkQuiescentVRAM_verdict_witness :
  fst (checkQuiescentVRAM (Some slotA) scenarioA) = Returned.
Proof.
  apply (checkQuiescentVRAM_verdict (C := cubeSim) slotA
           {| cm16 := 0; cm1 := [0; 0]; vram := [66; 0; 0; 0] |} 0
           {| rxAddr := 43981; answers := true; reply := [66] |} scenarioA).
  - reflexivity.
  - reflexivity.
  - reflexivity.
  - vm_compute. reflexivity.
  - split; [reflexivity |]. split.
    + repeat constructor.
    + intros j Hj. destruct j as [|[|[|[|j]]]]; reflexivity.
Defined.

End MoreScenarios.
